(** * CircularQueue.h: lock-free circular queue of EspSoftwareSerial

    A shallow embedding of [src/CircularQueue/CircularQueue.h] and the
    properties of its specification.

    - [Mach]: the integer types of the targets (ESP8266 / ESP32, ILP32:
      [int], [ssize_t] 32-bit two's complement, [size_t] 32-bit unsigned).
    - [CircularQueue], [CircularQueueMP]: the two classes, every member
      function as a function on the object's state.  A call that yields
      no result is [None]: undefined behaviour (remainder by zero, an
      access outside an array) and the exception of a refused allocation.
    - [Atomic]: the same member functions cut at their atomic accesses, one
      step per access, and the interleavings of any number of threads.  *)

From stdpp Require Import base option list numbers.
From Stdlib Require Import ZArith Lia.

Open Scope Z_scope.

(** ** Machine integers *)

Module Mach.

Definition INT_MAX : Z := 2147483647.
Definition INT_MIN : Z := -2147483648.
Definition SIZE_MAX : Z := 4294967295.

(** Conversion to [size_t]: reduction modulo 2^32. *)
Definition to_size (z : Z) : Z := z mod 4294967296.

(** Conversion to [int] / [ssize_t]: the two's complement reading of the low
    32 bits. *)
Definition to_int (z : Z) : Z := (z + 2147483648) mod 4294967296 - 2147483648.

(** [int] arithmetic, wrapping. *)
Definition int_add (a b : Z) : Z := to_int (a + b).
Definition int_sub (a b : Z) : Z := to_int (a - b).

(** [a % b] on [int]: truncating remainder; undefined for [b = 0] and for
    [INT_MIN % -1]. *)
Definition int_rem (a b : Z) : option Z :=
  if b =? 0 then None
  else if (a =? INT_MIN) && (b =? -1) then None
  else Some (Z.rem a b).

(** [size_t] arithmetic. *)
Definition size_add (a b : Z) : Z := to_size (a + b).
Definition size_sub (a b : Z) : Z := to_size (a - b).
Definition size_rem (a b : Z) : option Z :=
  if b =? 0 then None else Some (a mod b).

End Mach.

Import Mach.

(** ** The element type

    [const T defaultValue = {}]: the element type is value-initialisable. *)

Class ValueInit (T : Type) := value_init : T.

#[global] Instance ValueInit_Z : ValueInit Z := 0.

(** ** Arrays of atomic cells and caller buffers *)

Section Arrays.
Context {T : Type}.

(** [new std::atomic<T>[n]] for an [int n].  The expression throws when [n]
    is negative, when the array is larger than the implementation allows,
    and when the heap cannot provide it: [granted] says whether the
    implementation provides an array of this length at this moment.  The
    cells are not initialised, [fresh i] is what cell [i] happens to hold. *)
Definition new_array (granted : bool) (n : Z) (fresh : nat → T) : option (list T) :=
  if (n <? 0) || negb granted then None else Some (fresh <$> seq 0 (Z.to_nat n)).

(** [a[i].load()] *)
Definition array_load (a : list T) (i : Z) : option T :=
  if i <? 0 then None else a !! Z.to_nat i.

(** [a[i].store(v)] *)
Definition array_store (a : list T) (i : Z) (v : T) : option (list T) :=
  if (0 <=? i) && (i <? Z.of_nat (length a)) then Some (<[Z.to_nat i := v]> a)
  else None.

(** [std::copy_n(src + first, n, out + pos)], element by element; yields the
    written buffer and the advanced output position. *)
Fixpoint copy_n (src : list T) (first : nat) (n : nat) (out : list T) (pos : nat)
  : option (list T * nat) :=
  match n with
  | O => Some (out, pos)
  | S n' =>
      x ← src !! first;
      if decide (pos < length out)%nat
      then copy_n src (S first) n' (<[pos := x]> out) (S pos)
      else None
  end.

End Arrays.

(** ** class CircularQueue (single producer, single consumer) *)

Module CircularQueue.

Record t (T : Type) : Type := mk {
  m_bufSize : Z;
  m_buffer : list T;
  m_inPosT : Z;
  m_outPos : Z
}.
Arguments mk {T} _ _ _ _.
Arguments m_bufSize {T} _.
Arguments m_buffer {T} _.
Arguments m_inPosT {T} _.
Arguments m_outPos {T} _.

Section Members.
Context {T : Type} `{!ValueInit T}.

Definition defaultValue : T := value_init.

Definition set_inPosT (v : Z) (q : t T) : t T :=
  mk (m_bufSize q) (m_buffer q) v (m_outPos q).
Definition set_outPos (v : Z) (q : t T) : t T :=
  mk (m_bufSize q) (m_buffer q) (m_inPosT q) v.
Definition set_buffer (b : list T) (q : t T) : t T :=
  mk (m_bufSize q) b (m_inPosT q) (m_outPos q).

(** [CircularQueue(size_t capacity)]; an exception of [new] leaves no
    object. *)
Definition new (granted : bool) (capacity : Z) (fresh : nat → T) : option (t T) :=
  let bufSize := to_int (size_add capacity 1) in
  buf ← new_array granted bufSize fresh;
  Some (mk bufSize buf 0 0).

Definition flush (q : t T) : t T := set_outPos (m_inPosT q) q.

Definition available (q : t T) : Z :=
  let avail := int_sub (m_inPosT q) (m_outPos q) in
  let avail := if avail <? 0 then int_add avail (m_bufSize q) else avail in
  to_size avail.

Definition availableForWrite (q : t T) : Z :=
  let avail := int_sub (int_sub (m_outPos q) (m_inPosT q)) 1 in
  let avail := if avail <? 0 then int_add avail (m_bufSize q) else avail in
  to_size avail.

Definition peek (q : t T) : option T :=
  let outPos := m_outPos q in
  if m_inPosT q =? outPos then Some defaultValue
  else array_load (m_buffer q) outPos.

Definition push (val : T) (q : t T) : option (bool * t T) :=
  let inPos := m_inPosT q in
  next ← int_rem (int_add inPos 1) (m_bufSize q);
  if next =? m_outPos q then Some (false, q)
  else
    let q := set_inPosT next q in
    buf ← array_store (m_buffer q) inPos val;
    Some (true, set_buffer buf q).

Definition pop (q : t T) : option (T * t T) :=
  let outPos := m_outPos q in
  if m_inPosT q =? outPos then Some (defaultValue, q)
  else
    val ← array_load (m_buffer q) outPos;
    next ← int_rem (int_add outPos 1) (m_bufSize q);
    Some (val, set_outPos next q).

(** [pop_n(buffer, size)]: [buffer] is the caller's array from the pointer
    on; the result is the count, the written array and the queue. *)
Definition pop_n (buffer : list T) (size : Z) (q : t T)
  : option (Z * list T * t T) :=
  let size := Z.min size (available q) in
  let avail := size in
  if avail =? 0 then Some (0, buffer, q)
  else
    let outPos := m_outPos q in
    let n := Z.min avail (to_size (int_sub (m_bufSize q) outPos)) in
    if outPos <? 0 then None
    else
      '(buffer, pos) ← copy_n (m_buffer q) (Z.to_nat outPos) (Z.to_nat n) buffer 0;
      let avail := size_sub avail n in
      '(buffer, pos) ← (if 0 <? avail
                        then copy_n (m_buffer q) 0 (Z.to_nat avail) buffer pos
                        else Some (buffer, pos));
      next ← size_rem (size_add (to_size outPos) size) (to_size (m_bufSize q));
      Some (size, buffer, set_outPos (to_int next) q).

End Members.
End CircularQueue.

(** ** class CircularQueueMP (multiple producers, single consumer) *)

Module CircularQueueMP.

Record t (T : Type) : Type := mk {
  base : CircularQueue.t T;
  m_inPosL : Z;
  m_inPosC : Z
}.
Arguments mk {T} _ _ _.
Arguments base {T} _.
Arguments m_inPosL {T} _.
Arguments m_inPosC {T} _.

Section Members.
Context {T : Type} `{!ValueInit T}.

Definition set_base (b : CircularQueue.t T) (q : t T) : t T :=
  mk b (m_inPosL q) (m_inPosC q).
Definition set_inPosL (v : Z) (q : t T) : t T := mk (base q) v (m_inPosC q).
Definition set_inPosC (v : Z) (q : t T) : t T := mk (base q) (m_inPosL q) v.

Definition m_bufSize (q : t T) : Z := CircularQueue.m_bufSize (base q).
Definition m_buffer (q : t T) : list T := CircularQueue.m_buffer (base q).
Definition m_inPosT (q : t T) : Z := CircularQueue.m_inPosT (base q).
Definition m_outPos (q : t T) : Z := CircularQueue.m_outPos (base q).

Definition set_inPosT (v : Z) (q : t T) : t T :=
  set_base (CircularQueue.set_inPosT v (base q)) q.
Definition set_outPos (v : Z) (q : t T) : t T :=
  set_base (CircularQueue.set_outPos v (base q)) q.
Definition set_buffer (b : list T) (q : t T) : t T :=
  set_base (CircularQueue.set_buffer b (base q)) q.

(** [CircularQueueMP(size_t capacity)] *)
Definition new (granted : bool) (capacity : Z) (fresh : nat → T) : option (t T) :=
  b ← CircularQueue.new granted capacity fresh;
  Some (mk b 0 0).

Definition availableForWrite (q : t T) : Z :=
  let avail := int_sub (int_sub (m_outPos q) (m_inPosL q)) 1 in
  let avail := if avail <? 0 then int_add avail (m_bufSize q) else avail in
  to_size avail.

(** [push], the [#ifdef ESP8266] body: the whole call runs with interrupts
    masked ([xt_rsil(15)] ... [xt_wsr_ps]). *)
Definition push_esp8266 (val : T) (q : t T) : option (bool * t T) :=
  let inPos := m_inPosT q in
  next ← int_rem (int_add inPos 1) (m_bufSize q);
  if next =? m_outPos q then Some (false, q)
  else
    let q := set_inPosT next q in
    buf ← array_store (m_buffer q) inPos val;
    Some (true, set_buffer buf q).

End Members.
End CircularQueueMP.

(** ** The member functions, one step per atomic access

    Every access in the header uses the default [std::memory_order_seq_cst],
    so the executions of several threads are the interleavings of their
    atomic accesses.  A thread inside a call is the program point it has
    reached together with its locals.  A step performs the local computation
    up to the next access to an atomic ([load], [store], [exchange],
    [compare_exchange_*]), the access, and the branch taken on its result.
    Where one expression holds two loads (lines 49, 56, 136) they are taken
    left to right, and [min] (line 95) evaluates [available()] once; no
    property below depends on either.  The base class members act on the
    [base] part of a [CircularQueueMP]. *)

Module Atomic.

Import CircularQueueMP.

Section Steps.
Context {T : Type} `{!ValueInit T}.

Inductive call : Type :=
  | c_flush
  | c_available
  | c_availableForWrite
  | c_peek
  | c_push (val : T)
  | c_pop
  | c_pop_n (buffer : list T) (size : Z)
  | c_mp_availableForWrite
  | c_mp_push (val : T)
  | c_mp_push_esp8266 (val : T).

Inductive result : Type :=
  | r_void
  | r_size (n : Z)
  | r_value (v : T)
  | r_bool (b : bool)
  | r_pop_n (n : Z) (buffer : list T).

(** Who called [available()]: the user, or [pop_n] (line 95). *)
Inductive avail_caller : Type :=
  | from_user
  | from_pop_n (buffer : list T) (size : Z).

Inductive thread : Type :=
  | Ret (r : result)
  (* flush, line 44 *)
  | Flush_loadIn
  | Flush_storeOut (inPos : Z)
  (* available, line 49 *)
  | Avail_loadIn (k : avail_caller)
  | Avail_loadOut (k : avail_caller) (inPos : Z)
  (* availableForWrite, line 56 *)
  | AvailW_loadOut
  | AvailW_loadIn (outPos : Z)
  (* peek, lines 63-64 *)
  | Peek_loadOut
  | Peek_loadIn (outPos : Z)
  | Peek_loadBuf (outPos : Z)
  (* push, lines 69-76 *)
  | Push_loadIn (val : T)
  | Push_loadOut (val : T) (inPos : Z)
  | Push_storeIn (val : T) (inPos next : Z)
  | Push_storeBuf (val : T) (inPos : Z)
  (* pop, lines 83-89 *)
  | Pop_loadOut
  | Pop_loadIn (outPos : Z)
  | Pop_loadBuf (outPos : Z)
  | Pop_xchgOut (outPos : Z) (val : T)
  (* pop_n, lines 97-107 *)
  | PopN_loadOut (buffer : list T) (size : Z)
  | PopN_copy (size outPos rest : Z) (first n : nat) (buffer : list T) (pos : nat)
  | PopN_xchgOut (size outPos : Z) (buffer : list T)
  (* CircularQueueMP::availableForWrite, line 136 *)
  | MAvailW_loadOut
  | MAvailW_loadL (outPos : Z)
  (* CircularQueueMP::push, lines 161-176 *)
  | MPush_loadL (val : T)
  | MPush_loadOut (val : T) (inPos : Z)
  | MPush_casL (val : T) (inPos nextL : Z)
  | MPush_storeBuf (val : T) (inPos : Z)
  | MPush_loadC
  | MPush_casC (inPosC : Z)
  | MPush_casL2 (wrappedC : Z)
  | MPush_storeT (wrappedC : Z)
  (* CircularQueueMP::push, ESP8266 body, lines 144-156 *)
  | MPush_esp8266 (val : T).

Definition enter (c : call) : thread :=
  match c with
  | c_flush => Flush_loadIn
  | c_available => Avail_loadIn from_user
  | c_availableForWrite => AvailW_loadOut
  | c_peek => Peek_loadOut
  | c_push val => Push_loadIn val
  | c_pop => Pop_loadOut
  | c_pop_n buffer size => Avail_loadIn (from_pop_n buffer size)
  | c_mp_availableForWrite => MAvailW_loadOut
  | c_mp_push val => MPush_loadL val
  | c_mp_push_esp8266 val => MPush_esp8266 val
  end.

(** [if (avail < 0) avail += m_bufSize; return avail;] *)
Definition wrap_avail (avail bufSize : Z) : Z :=
  to_size (if avail <? 0 then int_add avail bufSize else avail).

(** [compare_exchange_weak/strong(expected, desired)] on a cell: success
    flag, the cell afterwards, [expected] afterwards.  A weak exchange may
    fail although the cell holds [expected]. *)
Definition compare_exchange (spurious : bool) (cell expected desired : Z)
  : bool * Z * Z :=
  if (cell =? expected) && negb spurious then (true, desired, expected)
  else (false, cell, cell).

(** Where [pop_n] goes once a [copy_n] has no element left. *)
Definition popn_copied (size outPos rest : Z) (buffer : list T) (pos : nat) : thread :=
  if 0 <? rest then PopN_copy size outPos 0 0%nat (Z.to_nat rest) buffer pos
  else PopN_xchgOut size outPos buffer.

Definition popn_copy (size outPos rest : Z) (first n : nat) (buffer : list T) (pos : nat)
  : thread :=
  match n with
  | O => popn_copied size outPos rest buffer pos
  | S _ => PopN_copy size outPos rest first n buffer pos
  end.

Definition step (spurious : bool) (th : thread) (q : t T) : option (thread * t T) :=
  match th with
  | Ret r => Some (Ret r, q)
  | Flush_loadIn => Some (Flush_storeOut (m_inPosT q), q)
  | Flush_storeOut inPos => Some (Ret r_void, set_outPos inPos q)
  | Avail_loadIn k => Some (Avail_loadOut k (m_inPosT q), q)
  | Avail_loadOut k inPos =>
      let avail := wrap_avail (int_sub inPos (m_outPos q)) (m_bufSize q) in
      match k with
      | from_user => Some (Ret (r_size avail), q)
      | from_pop_n buffer size =>
          let size := Z.min size avail in
          if size =? 0 then Some (Ret (r_pop_n 0 buffer), q)
          else Some (PopN_loadOut buffer size, q)
      end
  | AvailW_loadOut => Some (AvailW_loadIn (m_outPos q), q)
  | AvailW_loadIn outPos =>
      let avail := int_sub (int_sub outPos (m_inPosT q)) 1 in
      Some (Ret (r_size (wrap_avail avail (m_bufSize q))), q)
  | Peek_loadOut => Some (Peek_loadIn (m_outPos q), q)
  | Peek_loadIn outPos =>
      if m_inPosT q =? outPos then Some (Ret (r_value CircularQueue.defaultValue), q)
      else Some (Peek_loadBuf outPos, q)
  | Peek_loadBuf outPos =>
      v ← array_load (m_buffer q) outPos;
      Some (Ret (r_value v), q)
  | Push_loadIn val => Some (Push_loadOut val (m_inPosT q), q)
  | Push_loadOut val inPos =>
      next ← int_rem (int_add inPos 1) (m_bufSize q);
      if next =? m_outPos q then Some (Ret (r_bool false), q)
      else Some (Push_storeIn val inPos next, q)
  | Push_storeIn val inPos next => Some (Push_storeBuf val inPos, set_inPosT next q)
  | Push_storeBuf val inPos =>
      buf ← array_store (m_buffer q) inPos val;
      Some (Ret (r_bool true), set_buffer buf q)
  | Pop_loadOut => Some (Pop_loadIn (m_outPos q), q)
  | Pop_loadIn outPos =>
      if m_inPosT q =? outPos then Some (Ret (r_value CircularQueue.defaultValue), q)
      else Some (Pop_loadBuf outPos, q)
  | Pop_loadBuf outPos =>
      val ← array_load (m_buffer q) outPos;
      Some (Pop_xchgOut outPos val, q)
  | Pop_xchgOut outPos val =>
      next ← int_rem (int_add outPos 1) (m_bufSize q);
      Some (Ret (r_value val), set_outPos next q)
  | PopN_loadOut buffer size =>
      let outPos := m_outPos q in
      let n := Z.min size (to_size (int_sub (m_bufSize q) outPos)) in
      if outPos <? 0 then None
      else Some (popn_copy size outPos (size_sub size n)
                   (Z.to_nat outPos) (Z.to_nat n) buffer 0, q)
  | PopN_copy size outPos rest first n buffer pos =>
      match n with
      | O => Some (popn_copied size outPos rest buffer pos, q)
      | S n' =>
          x ← m_buffer q !! first;
          if decide (pos < length buffer)%nat
          then Some (popn_copy size outPos rest (S first) n' (<[pos := x]> buffer) (S pos), q)
          else None
      end
  | PopN_xchgOut size outPos buffer =>
      next ← size_rem (size_add (to_size outPos) size) (to_size (m_bufSize q));
      Some (Ret (r_pop_n size buffer), set_outPos (to_int next) q)
  | MAvailW_loadOut => Some (MAvailW_loadL (m_outPos q), q)
  | MAvailW_loadL outPos =>
      let avail := int_sub (int_sub outPos (m_inPosL q)) 1 in
      Some (Ret (r_size (wrap_avail avail (m_bufSize q))), q)
  | MPush_loadL val => Some (MPush_loadOut val (m_inPosL q), q)
  | MPush_loadOut val inPos =>
      nextL ← int_rem (int_add inPos 1) (m_bufSize q);
      if nextL =? m_outPos q then Some (Ret (r_bool false), q)
      else Some (MPush_casL val inPos nextL, q)
  | MPush_casL val inPos nextL =>
      let '(ok, cell, inPos) := compare_exchange spurious (m_inPosL q) inPos nextL in
      if ok then Some (MPush_storeBuf val inPos, set_inPosL cell q)
      else Some (MPush_loadOut val inPos, q)
  | MPush_storeBuf val inPos =>
      buf ← array_store (m_buffer q) inPos val;
      Some (MPush_loadC, set_buffer buf q)
  | MPush_loadC => Some (MPush_casC (m_inPosC q), q)
  | MPush_casC inPosC =>
      wrappedC ← int_rem (int_add inPosC 1) (m_bufSize q);
      let '(ok, cell, inPosC) := compare_exchange spurious (m_inPosC q) inPosC wrappedC in
      if ok then Some (MPush_casL2 wrappedC, set_inPosC cell q)
      else Some (MPush_casC inPosC, q)
  | MPush_casL2 wrappedC =>
      let '(ok, cell, _) := compare_exchange false (m_inPosL q) wrappedC wrappedC in
      if ok then Some (MPush_storeT wrappedC, set_inPosL cell q)
      else Some (Ret (r_bool true), q)
  | MPush_storeT wrappedC => Some (Ret (r_bool true), set_inPosT wrappedC q)
  | MPush_esp8266 val =>
      '(b, q) ← push_esp8266 val q;
      Some (Ret (r_bool b), q)
  end.

(** One thread running on its own; [oracle] says, step by step, whether a
    weak exchange made at that step fails spuriously. *)
Fixpoint run (oracle : list bool) (th : thread) (q : t T) : option (thread * t T) :=
  match oracle with
  | [] => Some (th, q)
  | spurious :: oracle =>
      '(th, q) ← step spurious th q;
      run oracle th q
  end.

(** Any number of threads sharing the queue. *)
Record config : Type := Config {
  queue : t T;
  threads : list thread
}.

Inductive event : Type :=
  | ev_call (i : nat) (c : call)
  | ev_step (i : nat) (spurious : bool).

Definition fire (e : event) (cfg : config) : option config :=
  match e with
  | ev_call i c =>
      th ← threads cfg !! i;
      match th with
      | Ret _ => Some (Config (queue cfg) (<[i := enter c]> (threads cfg)))
      | _ => None
      end
  | ev_step i spurious =>
      th ← threads cfg !! i;
      '(th, q) ← step spurious th (queue cfg);
      Some (Config q (<[i := th]> (threads cfg)))
  end.

Fixpoint exec (evs : list event) (cfg : config) : option config :=
  match evs with
  | [] => Some cfg
  | e :: evs => cfg ← fire e cfg; exec evs cfg
  end.

Definition start (q : t T) (nthreads : nat) : config :=
  Config q (replicate nthreads (Ret r_void)).

End Steps.

Arguments call : clear implicits.
Arguments result : clear implicits.
Arguments avail_caller : clear implicits.
Arguments thread : clear implicits.
Arguments config : clear implicits.
Arguments event : clear implicits.

End Atomic.

(** ** Class invariant, reachable states, repeated calls *)

Section Properties.
Context {T : Type} `{!ValueInit T}.

(** A cursor of a queue with [bufSize] slots.  A queue built with no slot at
    all ([bufSize = 0]) keeps its cursors at 0. *)
Definition cursor_ok (bufSize c : Z) : Prop := 0 ≤ c < Z.max 1 bufSize.

Record wf (q : CircularQueue.t T) : Prop := Wf {
  wf_bufSize : 0 ≤ CircularQueue.m_bufSize q ≤ INT_MAX;
  wf_buffer : Z.of_nat (length (CircularQueue.m_buffer q)) = CircularQueue.m_bufSize q;
  wf_inPosT : cursor_ok (CircularQueue.m_bufSize q) (CircularQueue.m_inPosT q);
  wf_outPos : cursor_ok (CircularQueue.m_bufSize q) (CircularQueue.m_outPos q)
}.

Record wfMP (q : CircularQueueMP.t T) : Prop := WfMP {
  wf_base : wf (CircularQueueMP.base q);
  wf_inPosL : cursor_ok (CircularQueueMP.m_bufSize q) (CircularQueueMP.m_inPosL q);
  wf_inPosC : cursor_ok (CircularQueueMP.m_bufSize q) (CircularQueueMP.m_inPosC q)
}.

(** The locals of a thread from which a cursor will be computed. *)
Definition thread_ok (bufSize : Z) (th : Atomic.thread T) : Prop :=
  match th with
  | Atomic.Flush_storeOut inPos => cursor_ok bufSize inPos
  | Atomic.Push_loadOut _ inPos => cursor_ok bufSize inPos
  | Atomic.Push_storeIn _ _ next => cursor_ok bufSize next
  | Atomic.Pop_loadIn outPos => cursor_ok bufSize outPos
  | Atomic.Pop_loadBuf outPos => cursor_ok bufSize outPos
  | Atomic.Pop_xchgOut outPos _ => cursor_ok bufSize outPos
  | Atomic.MPush_loadOut _ inPos => cursor_ok bufSize inPos
  | Atomic.MPush_casL _ _ nextL => cursor_ok bufSize nextL
  | Atomic.MPush_casC inPosC => cursor_ok bufSize inPosC
  | Atomic.MPush_casL2 wrappedC => cursor_ok bufSize wrappedC
  | Atomic.MPush_storeT wrappedC => cursor_ok bufSize wrappedC
  | _ => True
  end.

Definition inv (cfg : Atomic.config T) : Prop :=
  wfMP (Atomic.queue cfg) ∧
  Forall (thread_ok (CircularQueueMP.m_bufSize (Atomic.queue cfg))) (Atomic.threads cfg).

(** The states a queue constructed with [capacity] can be in, construction
    having succeeded: any number of threads, any calls of the members of
    either class, any interleaving of their steps.  (An object of the base
    class is the [base] part, with [m_inPosL] and [m_inPosC] never touched.) *)
Definition reachable_from (capacity : Z) (cfg : Atomic.config T) : Prop :=
  ∃ granted (fresh : nat → T) q0 nthreads evs,
    CircularQueueMP.new granted capacity fresh = Some q0 ∧
    Atomic.exec evs (Atomic.start q0 nthreads) = Some cfg.

Definition reachable (q : CircularQueue.t T) : Prop :=
  ∃ capacity cfg,
    reachable_from capacity cfg ∧ CircularQueueMP.base (Atomic.queue cfg) = q.

Definition empty (q : CircularQueue.t T) : Prop :=
  CircularQueue.m_inPosT q = CircularQueue.m_outPos q.

Definition full (q : CircularQueue.t T) : Prop :=
  (CircularQueue.m_inPosT q + 1) mod CircularQueue.m_bufSize q = CircularQueue.m_outPos q.

(** The unread elements, oldest first. *)
Definition contents (q : CircularQueue.t T) : list T :=
  take (Z.to_nat (CircularQueue.available q))
    (drop (Z.to_nat (CircularQueue.m_outPos q))
       (CircularQueue.m_buffer q ++ CircularQueue.m_buffer q)).

(** [n] calls of [pop()], the values in the order returned. *)
Fixpoint pops (n : nat) (q : CircularQueue.t T) : option (list T * CircularQueue.t T) :=
  match n with
  | O => Some ([], q)
  | S n =>
      '(v, q) ← CircularQueue.pop q;
      '(vs, q) ← pops n q;
      Some (v :: vs, q)
  end.

(** [push(v)] for each [v] of [vs] in order, the flags in the order returned. *)
Fixpoint pushes (vs : list T) (q : CircularQueue.t T)
  : option (list bool * CircularQueue.t T) :=
  match vs with
  | [] => Some ([], q)
  | v :: vs =>
      '(b, q) ← CircularQueue.push v q;
      '(bs, q) ← pushes vs q;
      Some (b :: bs, q)
  end.

(** From [q0], any [k ≤ C] pushes in a row are all accepted and leave
    [availableForWrite() = C - k]; after [C] of them the next one is refused. *)
Definition accepts_exactly (C : Z) (q0 : CircularQueue.t T) : Prop :=
  ∀ vs, Z.of_nat (length vs) ≤ C →
    ∃ q, pushes vs q0 = Some (replicate (length vs) true, q) ∧
      CircularQueue.availableForWrite q = C - Z.of_nat (length vs) ∧
      (Z.of_nat (length vs) = C → ∀ v, CircularQueue.push v q = Some (false, q)).

(** A queue given by natural numbers: [n] slots, write cursor [i], read
    cursor [o]. *)
Definition of_nats (n : nat) (buf : list T) (i o : nat) : CircularQueue.t T :=
  CircularQueue.mk (Z.of_nat n) buf (Z.of_nat i) (Z.of_nat o).

(** The number of unread elements and of free slots of [of_nats n _ i o]. *)
Definition used (n i o : nat) : nat :=
  if decide (o ≤ i)%nat then (i - o)%nat else (n + i - o)%nat.
Definition free (n i o : nat) : nat :=
  if decide (i < o)%nat then (o - i - 1)%nat else (n + o - i - 1)%nat.

(** The slot [k] places after slot [o]. *)
Definition slot (n o k : nat) : nat :=
  if decide (o + k < n)%nat then (o + k)%nat else (o + k - n)%nat.

(** Reservation cursor, completion counter and published write cursor agree:
    no [CircularQueueMP::push] is in flight. *)
Definition quiescent (q : CircularQueueMP.t T) : Prop :=
  CircularQueueMP.m_inPosL q = CircularQueueMP.m_inPosT q ∧
  CircularQueueMP.m_inPosC q = CircularQueueMP.m_inPosT q.

(** The program points [CircularQueueMP::push] passes through once the value
    is in its slot, [m1] being the state right after that store and [next]
    the reserved cursor. *)
Inductive push_alone_stored (m0 : CircularQueueMP.t T) (next : Z) (m1 : CircularQueueMP.t T)
  : Atomic.thread T → CircularQueueMP.t T → Prop :=
  | pa_loadC : push_alone_stored m0 next m1 Atomic.MPush_loadC m1
  | pa_casC :
      push_alone_stored m0 next m1
        (Atomic.MPush_casC (CircularQueueMP.m_inPosC m0)) m1
  | pa_casL2 :
      push_alone_stored m0 next m1
        (Atomic.MPush_casL2 next) (CircularQueueMP.set_inPosC next m1)
  | pa_storeT :
      push_alone_stored m0 next m1
        (Atomic.MPush_storeT next) (CircularQueueMP.set_inPosC next m1)
  | pa_done :
      push_alone_stored m0 next m1
        (Atomic.Ret (Atomic.r_bool true))
        (CircularQueueMP.set_inPosT next (CircularQueueMP.set_inPosC next m1)).

(** The program points [CircularQueueMP::push(val)] passes through, and the
    state of the queue at each, when it starts in [m0] and no other thread
    runs. *)
Inductive push_alone (val : T) (m0 : CircularQueueMP.t T)
  : Atomic.thread T → CircularQueueMP.t T → Prop :=
  | pa_loadL : push_alone val m0 (Atomic.MPush_loadL val) m0
  | pa_loadOut :
      push_alone val m0 (Atomic.MPush_loadOut val (CircularQueueMP.m_inPosL m0)) m0
  | pa_full :
      CircularQueue.push val (CircularQueueMP.base m0)
        = Some (false, CircularQueueMP.base m0) →
      push_alone val m0 (Atomic.Ret (Atomic.r_bool false)) m0
  | pa_casL next :
      int_rem (int_add (CircularQueueMP.m_inPosL m0) 1) (CircularQueueMP.m_bufSize m0)
        = Some next →
      next ≠ CircularQueueMP.m_outPos m0 →
      push_alone val m0
        (Atomic.MPush_casL val (CircularQueueMP.m_inPosL m0) next) m0
  | pa_storeBuf next :
      int_rem (int_add (CircularQueueMP.m_inPosL m0) 1) (CircularQueueMP.m_bufSize m0)
        = Some next →
      next ≠ CircularQueueMP.m_outPos m0 →
      push_alone val m0
        (Atomic.MPush_storeBuf val (CircularQueueMP.m_inPosL m0))
        (CircularQueueMP.set_inPosL next m0)
  | pa_stored next buf th m :
      int_rem (int_add (CircularQueueMP.m_inPosL m0) 1) (CircularQueueMP.m_bufSize m0)
        = Some next →
      next ≠ CircularQueueMP.m_outPos m0 →
      array_store (CircularQueueMP.m_buffer m0) (CircularQueueMP.m_inPosL m0) val
        = Some buf →
      push_alone_stored m0 next
        (CircularQueueMP.set_buffer buf (CircularQueueMP.set_inPosL next m0)) th m →
      push_alone val m0 th m.

End Properties.

(** ** What a caller owes, what a thread may touch, repeated producer calls *)

Section Discipline.
Context {T : Type} `{!ValueInit T}.

(** [pop_n(buffer, size)]: the caller's array has room for [size] elements. *)
Definition caller_ok (k : Atomic.avail_caller T) : Prop :=
  match k with
  | Atomic.from_user => True
  | Atomic.from_pop_n buffer size => 0 ≤ size ≤ Z.of_nat (length buffer)
  end.

Definition call_ok (c : Atomic.call T) : Prop :=
  match c with
  | Atomic.c_pop_n buffer size => 0 ≤ size ≤ Z.of_nat (length buffer)
  | _ => True
  end.

Definition event_ok (e : Atomic.event T) : Prop :=
  match e with
  | Atomic.ev_call _ c => call_ok c
  | Atomic.ev_step _ _ => True
  end.

(** The locals of a thread that will index the storage or the caller's
    array, in a queue of [bufSize] slots. *)
Definition thread_safe (bufSize : Z) (th : Atomic.thread T) : Prop :=
  match th with
  | Atomic.Avail_loadIn k => caller_ok k
  | Atomic.Avail_loadOut k inPos => caller_ok k ∧ cursor_ok bufSize inPos
  | Atomic.Peek_loadIn outPos => cursor_ok bufSize outPos
  | Atomic.Peek_loadBuf outPos => cursor_ok bufSize outPos
  | Atomic.Push_storeIn _ inPos _ => cursor_ok bufSize inPos
  | Atomic.Push_storeBuf _ inPos => cursor_ok bufSize inPos
  | Atomic.PopN_loadOut buffer size =>
      0 < size < bufSize ∧ size ≤ Z.of_nat (length buffer)
  | Atomic.PopN_copy size outPos rest first n buffer pos =>
      Z.of_nat first + Z.of_nat n ≤ bufSize ∧ 0 ≤ rest ≤ bufSize ∧
      Z.of_nat pos + Z.of_nat n + rest ≤ Z.of_nat (length buffer)
  | Atomic.MPush_casL _ inPos _ => cursor_ok bufSize inPos
  | Atomic.MPush_storeBuf _ inPos => cursor_ok bufSize inPos
  | _ => True
  end.

(** The members the consumer calls, and the program points inside them. *)
Definition consumer_call (c : Atomic.call T) : Prop :=
  match c with
  | Atomic.c_flush | Atomic.c_available | Atomic.c_peek | Atomic.c_pop
  | Atomic.c_pop_n _ _ => True
  | _ => False
  end.

Definition consumer_side (th : Atomic.thread T) : Prop :=
  match th with
  | Atomic.Ret _
  | Atomic.Flush_loadIn | Atomic.Flush_storeOut _
  | Atomic.Avail_loadIn _ | Atomic.Avail_loadOut _ _
  | Atomic.Peek_loadOut | Atomic.Peek_loadIn _ | Atomic.Peek_loadBuf _
  | Atomic.Pop_loadOut | Atomic.Pop_loadIn _ | Atomic.Pop_loadBuf _
  | Atomic.Pop_xchgOut _ _
  | Atomic.PopN_loadOut _ _ | Atomic.PopN_copy _ _ _ _ _ _ _
  | Atomic.PopN_xchgOut _ _ _ => True
  | _ => False
  end.

Definition consumer_event (e : Atomic.event T) : Prop :=
  match e with
  | Atomic.ev_call _ c => consumer_call c
  | Atomic.ev_step _ _ => True
  end.

(** The members a producer calls, and the program points inside them. *)
Definition producer_call (c : Atomic.call T) : Prop :=
  match c with
  | Atomic.c_availableForWrite | Atomic.c_push _
  | Atomic.c_mp_availableForWrite | Atomic.c_mp_push _
  | Atomic.c_mp_push_esp8266 _ => True
  | _ => False
  end.

Definition producer_side (th : Atomic.thread T) : Prop :=
  match th with
  | Atomic.Ret _
  | Atomic.AvailW_loadOut | Atomic.AvailW_loadIn _
  | Atomic.Push_loadIn _ | Atomic.Push_loadOut _ _ | Atomic.Push_storeIn _ _ _
  | Atomic.Push_storeBuf _ _
  | Atomic.MAvailW_loadOut | Atomic.MAvailW_loadL _
  | Atomic.MPush_loadL _ | Atomic.MPush_loadOut _ _ | Atomic.MPush_casL _ _ _
  | Atomic.MPush_storeBuf _ _ | Atomic.MPush_loadC | Atomic.MPush_casC _
  | Atomic.MPush_casL2 _ | Atomic.MPush_storeT _
  | Atomic.MPush_esp8266 _ => True
  | _ => False
  end.

Definition producer_event (e : Atomic.event T) : Prop :=
  match e with
  | Atomic.ev_call _ c => producer_call c
  | Atomic.ev_step _ _ => True
  end.

(** [CircularQueueMP::push(v)] (compare-and-swap body) for each [v] of [vs],
    one call after the other, each run to its end with no exchange failing
    spuriously; the flags in the order returned. *)
Fixpoint mp_pushes (vs : list T) (m : CircularQueueMP.t T)
  : option (list bool * CircularQueueMP.t T) :=
  match vs with
  | [] => Some ([], m)
  | v :: vs =>
      '(th, m) ← Atomic.run (replicate 8 false) (Atomic.MPush_loadL v) m;
      match th with
      | Atomic.Ret (Atomic.r_bool b) =>
          '(bs, m) ← mp_pushes vs m;
          Some (b :: bs, m)
      | _ => None
      end
  end.

(** [CircularQueueMP::push(v)] (ESP8266 body) for each [v] of [vs]. *)
Fixpoint esp8266_pushes (vs : list T) (m : CircularQueueMP.t T)
  : option (list bool * CircularQueueMP.t T) :=
  match vs with
  | [] => Some ([], m)
  | v :: vs =>
      '(b, m) ← CircularQueueMP.push_esp8266 v m;
      '(bs, m) ← esp8266_pushes vs m;
      Some (b :: bs, m)
  end.

(** *** One producer in [CircularQueueMP::push], one consumer in [pop] *)

(** Thread 0 is the producer, thread 1 the consumer. *)
Definition spsc_event (e : Atomic.event T) : Prop :=
  match e with
  | Atomic.ev_call 0 (Atomic.c_mp_push _)
  | Atomic.ev_call 0 Atomic.c_mp_availableForWrite
  | Atomic.ev_call 1 Atomic.c_pop
  | Atomic.ev_call 1 Atomic.c_peek
  | Atomic.ev_call 1 Atomic.c_available => True
  | Atomic.ev_call _ _ => False
  | Atomic.ev_step _ _ => True
  end.

(** What a step hands over: the value [CircularQueueMP::push] puts into its
    reserved slot (from there on the call returns [true]), and the value
    [pop] returns after it found the queue non-empty. *)
Definition stored_by (th : Atomic.thread T) : list T :=
  match th with
  | Atomic.MPush_storeBuf val _ => [val]
  | _ => []
  end.

Definition returned_by (th : Atomic.thread T) : list T :=
  match th with
  | Atomic.Pop_xchgOut _ val => [val]
  | _ => []
  end.

Definition stepping (e : Atomic.event T) (cfg : Atomic.config T) : option (Atomic.thread T) :=
  match e with
  | Atomic.ev_call _ _ => None
  | Atomic.ev_step i _ => Atomic.threads cfg !! i
  end.

(** The values stored by pushes, and those returned by pops, along an
    execution, in the order of the steps. *)
Fixpoint stored (evs : list (Atomic.event T)) (cfg : Atomic.config T) : list T :=
  match evs with
  | [] => []
  | e :: evs =>
      from_option stored_by [] (stepping e cfg)
        ++ from_option (stored evs) [] (Atomic.fire e cfg)
  end.

Fixpoint delivered (evs : list (Atomic.event T)) (cfg : Atomic.config T) : list T :=
  match evs with
  | [] => []
  | e :: evs =>
      from_option returned_by [] (stepping e cfg)
        ++ from_option (delivered evs) [] (Atomic.fire e cfg)
  end.

(** The value in the slot at [m_inPosT] while [CircularQueueMP::push] is
    between its store into that slot and its [m_inPosT.store]. *)
Definition in_flight (th : Atomic.thread T) (q : CircularQueueMP.t T) : list T :=
  match th with
  | Atomic.MPush_loadC | Atomic.MPush_casC _ | Atomic.MPush_casL2 _
  | Atomic.MPush_storeT _ =>
      option_list (CircularQueueMP.m_buffer q !! Z.to_nat (CircularQueueMP.m_inPosT q))
  | _ => []
  end.

Definition unpublished (cfg : Atomic.config T) : list T :=
  from_option (λ th, in_flight th (Atomic.queue cfg)) [] (Atomic.threads cfg !! 0%nat).

(** The producer's program points against the cursors of a queue with [n]
    slots, write cursor [i], read cursor [o], [m_inPosL = L], [m_inPosC = C]. *)
Definition producer_at (n i o : nat) (L C : Z) (th : Atomic.thread T) : Prop :=
  match th with
  | Atomic.Ret _ | Atomic.MPush_loadL _
  | Atomic.MAvailW_loadOut | Atomic.MAvailW_loadL _ =>
      L = Z.of_nat i ∧ C = Z.of_nat i
  | Atomic.MPush_loadOut _ inPos =>
      L = Z.of_nat i ∧ C = Z.of_nat i ∧ inPos = Z.of_nat i
  | Atomic.MPush_casL _ inPos nextL =>
      L = Z.of_nat i ∧ C = Z.of_nat i ∧ inPos = Z.of_nat i ∧
      nextL = Z.of_nat (slot n i 1) ∧ slot n i 1 ≠ o
  | Atomic.MPush_storeBuf _ inPos =>
      L = Z.of_nat (slot n i 1) ∧ C = Z.of_nat i ∧ inPos = Z.of_nat i ∧
      slot n i 1 ≠ o
  | Atomic.MPush_loadC | Atomic.MPush_casC _ =>
      L = Z.of_nat (slot n i 1) ∧ C = Z.of_nat i ∧ slot n i 1 ≠ o
  | Atomic.MPush_casL2 wrappedC | Atomic.MPush_storeT wrappedC =>
      L = Z.of_nat (slot n i 1) ∧ C = Z.of_nat (slot n i 1) ∧
      wrappedC = Z.of_nat (slot n i 1) ∧ slot n i 1 ≠ o
  | _ => False
  end.

(** The consumer's program points against storage and cursors. *)
Definition consumer_at (buf : list T) (i o : nat) (th : Atomic.thread T) : Prop :=
  match th with
  | Atomic.Ret _ | Atomic.Pop_loadOut
  | Atomic.Avail_loadIn Atomic.from_user | Atomic.Avail_loadOut Atomic.from_user _
  | Atomic.Peek_loadOut | Atomic.Peek_loadIn _ | Atomic.Peek_loadBuf _ => True
  | Atomic.Pop_loadIn outPos => outPos = Z.of_nat o
  | Atomic.Pop_loadBuf outPos => outPos = Z.of_nat o ∧ i ≠ o
  | Atomic.Pop_xchgOut outPos val =>
      outPos = Z.of_nat o ∧ i ≠ o ∧ buf !! o = Some val
  | _ => False
  end.

Definition spsc_inv (cfg : Atomic.config T) : Prop :=
  ∃ n buf i o L C P K,
    cfg = Atomic.Config (CircularQueueMP.mk (of_nats n buf i o) L C) [P; K] ∧
    Z.of_nat n ≤ INT_MAX ∧ length buf = n ∧ (i < n)%nat ∧ (o < n)%nat ∧
    producer_at n i o L C P ∧ consumer_at buf i o K.

End Discipline.

(** ** Concrete schedules and states, for [T = uint32_t] *)

(** Thread [i] makes call [c] and runs [steps] steps of it, no exchange
    failing spuriously. *)
Definition calls (i : nat) (c : Atomic.call Z) (steps : nat) : list (Atomic.event Z) :=
  Atomic.ev_call i c :: replicate steps (Atomic.ev_step i false).

(** Capacity 2, cells initially 0: push 10, push 11, pop, pop. *)
Definition drained_schedule : list (Atomic.event Z) :=
  calls 0 (Atomic.c_push 10) 4 ++ calls 0 (Atomic.c_push 11) 4 ++
  calls 1 Atomic.c_pop 4 ++ calls 1 Atomic.c_pop 4.

Definition drained_example : CircularQueue.t Z := CircularQueue.mk 3 [10; 11; 0] 2 2.

(** ... then push 12, push 13: full, and the unread range wraps. *)
Definition wrapped_schedule : list (Atomic.event Z) :=
  drained_schedule ++ calls 0 (Atomic.c_push 12) 4 ++ calls 0 (Atomic.c_push 13) 4.

Definition wrapped_example : CircularQueue.t Z := CircularQueue.mk 3 [13; 11; 12] 1 2.

(** Capacity 1, cells initially 170: [push(7)] by thread 0 and [pop()] by
    thread 1, the four accesses of [pop] falling between the third and the
    fourth access of [push]. *)
Definition race_schedule : list (Atomic.event Z) :=
  calls 0 (Atomic.c_push 7) 3 ++ calls 1 Atomic.c_pop 4 ++ [Atomic.ev_step 0 false].

(** Capacity 2: two threads in [CircularQueueMP::push] at once (one weak
    exchange of thread 0 failing spuriously), then a [pop_n] and a [flush] by
    a third thread, then another [CircularQueueMP::push], which wraps. *)
Definition mixed_schedule : list (Atomic.event Z) :=
  [Atomic.ev_call 0 (Atomic.c_mp_push 1); Atomic.ev_call 1 (Atomic.c_mp_push 2);
   Atomic.ev_step 0 false; Atomic.ev_step 1 false; Atomic.ev_step 0 false;
   Atomic.ev_step 1 false; Atomic.ev_step 0 true; Atomic.ev_step 1 false;
   Atomic.ev_step 0 false; Atomic.ev_step 0 false; Atomic.ev_step 1 false;
   Atomic.ev_step 1 false; Atomic.ev_step 0 false; Atomic.ev_step 1 false;
   Atomic.ev_step 1 false; Atomic.ev_step 0 false; Atomic.ev_step 1 false;
   Atomic.ev_step 0 false; Atomic.ev_step 1 false; Atomic.ev_step 0 false;
   Atomic.ev_step 1 false; Atomic.ev_step 0 false; Atomic.ev_step 1 false;
   Atomic.ev_step 0 false; Atomic.ev_step 0 false]
  ++ calls 2 (Atomic.c_pop_n [0; 0; 0] 3) 6 ++ calls 2 Atomic.c_flush 2
  ++ calls 0 (Atomic.c_mp_push 3) 8.

Definition mixed_start : CircularQueueMP.t Z :=
  CircularQueueMP.mk (CircularQueue.mk 3 [0; 0; 0] 0 0) 0 0.

Definition mixed_final : Atomic.config Z :=
  Atomic.Config (CircularQueueMP.mk (CircularQueue.mk 3 [2; 1; 3] 0 2) 0 0)
    [Atomic.Ret (Atomic.r_bool true); Atomic.Ret (Atomic.r_bool true);
     Atomic.Ret Atomic.r_void].

Definition race_start : CircularQueueMP.t Z :=
  CircularQueueMP.mk (CircularQueue.mk 2 [170; 170] 0 0) 0 0.

Definition race_final : Atomic.config Z :=
  Atomic.Config (CircularQueueMP.mk (CircularQueue.mk 2 [7; 170] 1 1) 0 0)
    [Atomic.Ret (Atomic.r_bool true); Atomic.Ret (Atomic.r_value 170)].

(** Capacity 0: a [push], a [CircularQueueMP::push] and a [pop]. *)
Definition zero_schedule : list (Atomic.event Z) :=
  calls 0 (Atomic.c_push 5) 4 ++ calls 1 (Atomic.c_mp_push 6) 8 ++ calls 1 Atomic.c_pop 4.

Definition zero_final : Atomic.config Z :=
  Atomic.Config (CircularQueueMP.mk (CircularQueue.mk 1 [0] 0 0) 0 0)
    [Atomic.Ret (Atomic.r_bool false); Atomic.Ret (Atomic.r_value 0)].

(** Capacity 2, cells initially 170.  Thread 0 runs [CircularQueueMP::push(1)]
    up to, not including, its [m_inPosT.store(1)]; thread 1 runs
    [CircularQueueMP::push(2)] to the end; thread 2 pops twice; then thread 0
    performs its store. *)
Definition regress_schedule : list (Atomic.event Z) :=
  calls 0 (Atomic.c_mp_push 1) 7 ++ calls 1 (Atomic.c_mp_push 2) 8 ++
  calls 2 Atomic.c_pop 4 ++ calls 2 Atomic.c_pop 4 ++ [Atomic.ev_step 0 false].

Definition regress_start : CircularQueueMP.t Z :=
  CircularQueueMP.mk (CircularQueue.mk 3 [170; 170; 170] 0 0) 0 0.

(** ... after the two pushes (17 events) and at the end. *)
Definition regress_published : Atomic.config Z :=
  Atomic.Config (CircularQueueMP.mk (CircularQueue.mk 3 [1; 2; 170] 2 0) 2 2)
    [Atomic.MPush_storeT 1; Atomic.Ret (Atomic.r_bool true); Atomic.Ret Atomic.r_void].

Definition regress_final : Atomic.config Z :=
  Atomic.Config (CircularQueueMP.mk (CircularQueue.mk 3 [1; 2; 170] 1 2) 2 2)
    [Atomic.Ret (Atomic.r_bool true); Atomic.Ret (Atomic.r_bool true);
     Atomic.Ret (Atomic.r_value 2)].

(** Quiescent, one element unread, the next slot to write is the last. *)
Definition quiescent_example : CircularQueueMP.t Z :=
  CircularQueueMP.mk (CircularQueue.mk 3 [10; 11; 0] 2 1) 2 2.

(** Capacity 2: three pushes and a pop, then a [pop_n] of 3 stopped inside
    its first [std::copy_n], one element copied. *)
Definition copying_schedule : list (Atomic.event Z) :=
  calls 0 (Atomic.c_push 10) 4 ++ calls 0 (Atomic.c_push 11) 4 ++
  calls 1 Atomic.c_pop 4 ++ calls 0 (Atomic.c_push 12) 4 ++
  calls 1 (Atomic.c_pop_n [0; 0; 0] 3) 4.

Definition copying_example : Atomic.config Z :=
  Atomic.Config (CircularQueueMP.mk (CircularQueue.mk 3 [10; 11; 12] 0 1) 0 0)
    [Atomic.Ret (Atomic.r_bool true); Atomic.PopN_copy 2 1 0 2 1 [11; 0; 0] 1].

(** On the wrapped queue: a [peek], a [pop_n] of 1 interleaved with an
    [available], a [pop], a [flush]. *)
Definition consumer_schedule : list (Atomic.event Z) :=
  calls 0 Atomic.c_peek 3 ++
  [Atomic.ev_call 0 (Atomic.c_pop_n [0; 0; 0] 1); Atomic.ev_call 1 Atomic.c_available;
   Atomic.ev_step 0 false; Atomic.ev_step 1 false; Atomic.ev_step 0 false;
   Atomic.ev_step 0 false; Atomic.ev_step 0 false; Atomic.ev_step 1 false;
   Atomic.ev_step 0 false] ++
  calls 1 Atomic.c_pop 4 ++ calls 0 Atomic.c_flush 2.

Definition consumer_start : Atomic.config Z :=
  Atomic.start (CircularQueueMP.mk wrapped_example 1 1) 2.

Definition consumer_final : Atomic.config Z :=
  Atomic.Config (CircularQueueMP.mk (CircularQueue.mk 3 [13; 11; 12] 1 1) 1 1)
    [Atomic.Ret Atomic.r_void; Atomic.Ret (Atomic.r_value 13)].

(** The two interleaved [CircularQueueMP::push] calls of [mixed_schedule]. *)
Definition producers_schedule : list (Atomic.event Z) := take 25 mixed_schedule.

Definition producers_final : Atomic.config Z :=
  Atomic.Config (CircularQueueMP.mk (CircularQueue.mk 3 [2; 1; 0] 2 0) 2 2)
    [Atomic.Ret (Atomic.r_bool true); Atomic.Ret (Atomic.r_bool true)].

(** Capacity 2, one producer and one consumer.  A [pop] finds the queue empty
    while [CircularQueueMP::push(1)] has stored but not published; a second
    [pop] runs interleaved with [CircularQueueMP::push(2)] (one weak exchange
    failing spuriously) and returns 1; the second push is left between its
    store and its [m_inPosT.store]. *)
Definition spsc_schedule : list (Atomic.event Z) :=
  calls 0 (Atomic.c_mp_push 1) 6 ++ calls 1 Atomic.c_pop 2 ++
  [Atomic.ev_step 0 false; Atomic.ev_step 0 false;
   Atomic.ev_call 0 (Atomic.c_mp_push 2); Atomic.ev_call 1 Atomic.c_pop;
   Atomic.ev_step 1 false; Atomic.ev_step 0 false; Atomic.ev_step 1 false;
   Atomic.ev_step 0 false; Atomic.ev_step 1 false; Atomic.ev_step 0 true;
   Atomic.ev_step 1 false; Atomic.ev_step 0 false; Atomic.ev_step 0 false;
   Atomic.ev_step 0 false; Atomic.ev_step 0 false].

Definition spsc_final : Atomic.config Z :=
  Atomic.Config (CircularQueueMP.mk (CircularQueue.mk 3 [1; 2; 0] 1 1) 2 1)
    [Atomic.MPush_casC 1; Atomic.Ret (Atomic.r_value 1)].

(** Capacity 4, cells initially 170, as constructed. *)
Definition fresh_example : CircularQueue.t Z :=
  CircularQueue.mk 5 [170; 170; 170; 170; 170] 0 0.

(** ** Machine arithmetic within range *)

Ltac zmod := Z.div_mod_to_equations; lia.
Ltac spsc_same := split_and!; try done; simpl; rewrite ?app_nil_r; done.

Lemma to_int_id z : INT_MIN ≤ z ≤ INT_MAX → to_int z = z.
Proof. unfold to_int, INT_MIN, INT_MAX. zmod. Qed.

Lemma to_int_range z : INT_MIN ≤ to_int z ≤ INT_MAX.
Proof. unfold to_int, INT_MIN, INT_MAX. zmod. Qed.

Lemma to_size_id z : 0 ≤ z ≤ SIZE_MAX → to_size z = z.
Proof. unfold to_size, SIZE_MAX. zmod. Qed.

Lemma int_rem_mod a b :
  0 ≤ a → 0 < b → int_rem a b = Some (a mod b).
Proof.
  intros Ha Hb. unfold int_rem.
  destruct (Z.eqb_spec b 0); [lia|].
  destruct (Z.eqb_spec b (-1)); [lia|].
  rewrite andb_false_r. by rewrite Z.rem_mod_nonneg by lia.
Qed.

Lemma cursor_ok_0 n : cursor_ok n 0.
Proof. unfold cursor_ok. lia. Qed.

(** The successor of a cursor, as every member function computes it. *)
Lemma next_cursor n c :
  0 ≤ n ≤ INT_MAX → cursor_ok n c →
  int_rem (int_add c 1) n = (if n =? 0 then None else Some ((c + 1) mod n)).
Proof.
  intros Hn Hc. destruct (Z.eqb_spec n 0) as [->|]; [done|].
  unfold cursor_ok, int_add in *.
  rewrite to_int_id by (unfold INT_MIN, INT_MAX in *; lia).
  apply int_rem_mod; lia.
Qed.

Lemma next_cursor_ok n c c' :
  0 ≤ n ≤ INT_MAX → cursor_ok n c →
  int_rem (int_add c 1) n = Some c' → cursor_ok n c'.
Proof.
  intros Hn Hc. rewrite next_cursor by done.
  destruct (Z.eqb_spec n 0); [done|]. intros [= <-].
  unfold cursor_ok. pose proof (Z.mod_pos_bound (c + 1) n). lia.
Qed.

Lemma index_cursor_ok n x c :
  0 ≤ n ≤ INT_MAX → size_rem x (to_size n) = Some c → cursor_ok n (to_int c).
Proof.
  intros Hn. rewrite to_size_id by (unfold INT_MAX, SIZE_MAX in *; lia).
  unfold size_rem. destruct (Z.eqb_spec n 0); [done|]. intros [= <-].
  pose proof (Z.mod_pos_bound x n).
  rewrite to_int_id; unfold cursor_ok, INT_MIN, INT_MAX in *; lia.
Qed.

(** ** The class invariant holds in every reachable state *)

Section Invariant.
Context {T : Type} `{!ValueInit T}.
Implicit Types (q : CircularQueue.t T) (m : CircularQueueMP.t T).

Lemma wf_set_inPosT q c :
  wf q → cursor_ok (CircularQueue.m_bufSize q) c → wf (CircularQueue.set_inPosT c q).
Proof. intros [] ?. by constructor. Qed.

Lemma array_store_length (a a' : list T) i v :
  array_store a i v = Some a' → length a' = length a.
Proof.
  unfold array_store. case_match; [|done]. intros [= <-]. apply length_insert.
Qed.

Lemma wf_set_buffer q a i v :
  wf q → array_store (CircularQueue.m_buffer q) i v = Some a →
  wf (CircularQueue.set_buffer a q).
Proof.
  intros [] Ha. constructor; simpl; try done.
  by rewrite (array_store_length _ _ _ _ Ha).
Qed.

Lemma new_array_length granted n fresh (a : list T) :
  new_array granted n fresh = Some a → 0 ≤ n ∧ Z.of_nat (length a) = n.
Proof.
  unfold new_array. destruct (Z.ltb_spec n 0); [done|].
  destruct granted; [|done]. intros [= <-].
  rewrite length_fmap, length_seq. lia.
Qed.

Lemma new_wf granted capacity fresh q :
  CircularQueue.new granted capacity fresh = Some q →
  wf q ∧ CircularQueue.m_inPosT q = 0 ∧ CircularQueue.m_outPos q = 0 ∧
  CircularQueue.m_bufSize q = to_int (size_add capacity 1).
Proof.
  unfold CircularQueue.new. intros Hq.
  destruct (new_array _ _ _) as [a|] eqn:Ha; [|done].
  injection Hq as <-. apply new_array_length in Ha as [Hn Hl].
  pose proof (to_int_range (size_add capacity 1)).
  repeat split; simpl; try done; try lia; apply cursor_ok_0.
Qed.

Lemma newMP_wf granted capacity fresh m :
  CircularQueueMP.new granted capacity fresh = Some m →
  wfMP m ∧ CircularQueueMP.m_inPosL m = 0 ∧ CircularQueueMP.m_inPosC m = 0.
Proof.
  unfold CircularQueueMP.new. intros Hm.
  destruct (CircularQueue.new _ _ _) as [q|] eqn:Hq; [|done].
  injection Hm as <-. apply new_wf in Hq as (? & ? & ? & ?).
  split; [|done]. constructor; simpl; [done|apply cursor_ok_0..].
Qed.

Lemma wfMP_set_base m q :
  wf q → CircularQueue.m_bufSize q = CircularQueueMP.m_bufSize m →
  wfMP m → wfMP (CircularQueueMP.set_base q m).
Proof.
  intros Hq Hn [? HL HC]. unfold CircularQueueMP.m_bufSize in *.
  constructor; simpl; unfold CircularQueueMP.m_bufSize; simpl; by rewrite ?Hn.
Qed.

Lemma push_esp8266_wf val m b m' :
  wfMP m → CircularQueueMP.push_esp8266 val m = Some (b, m') →
  wfMP m' ∧ CircularQueueMP.m_bufSize m' = CircularQueueMP.m_bufSize m.
Proof.
  intros Hm. unfold CircularQueueMP.push_esp8266.
  destruct (int_rem _ _) as [next|] eqn:Hnext; [|done]. simpl.
  case_match; [by intros [= <- <-]|].
  destruct (array_store _ _ _) as [a|] eqn:Ha; [|done]. simpl. intros [= <- <-].
  destruct Hm as [Hq HL HC]. pose proof Hq as [].
  apply next_cursor_ok in Hnext; [|done..].
  split; [|done].
  apply wfMP_set_base; [| done |].
  - eapply wf_set_buffer; [|exact Ha]. by apply wf_set_inPosT.
  - apply wfMP_set_base; [by apply wf_set_inPosT|done|by constructor].
Qed.

Lemma popn_copied_ok n size outPos rest (buffer : list T) pos :
  thread_ok n (Atomic.popn_copied size outPos rest buffer pos).
Proof. unfold Atomic.popn_copied. by case_match. Qed.

Lemma popn_copy_ok n size outPos rest first k (buffer : list T) pos :
  thread_ok n (Atomic.popn_copy size outPos rest first k buffer pos).
Proof. destruct k; [apply popn_copied_ok|done]. Qed.

Lemma step_inv spurious th m th' m' :
  wfMP m → thread_ok (CircularQueueMP.m_bufSize m) th →
  Atomic.step spurious th m = Some (th', m') →
  wfMP m' ∧ thread_ok (CircularQueueMP.m_bufSize m') th' ∧
  CircularQueueMP.m_bufSize m' = CircularQueueMP.m_bufSize m.
Proof.
  intros Hm Hth Hstep. pose proof Hm as [Hq HL HC]. pose proof Hq as [Hn Hlen Hin Hout].
  unfold CircularQueueMP.m_bufSize in *.
  destruct th; simpl in Hstep, Hth;
    repeat match type of Hstep with
    | context [int_rem ?a ?b] =>
        let H := fresh "Hnext" in
        destruct (int_rem a b) eqn:H; simpl in Hstep; [|done];
        apply next_cursor_ok in H; [|done..]
    | context [size_rem ?a ?b] =>
        let H := fresh "Hnext" in
        destruct (size_rem a b) eqn:H; simpl in Hstep; [|done];
        apply index_cursor_ok in H; [|done]
    | context [array_store ?a ?i ?v] =>
        let H := fresh "Hst" in
        destruct (array_store a i v) eqn:H; simpl in Hstep; [|done];
        apply array_store_length in H
    | context [array_load ?a ?i] => destruct (array_load a i); simpl in Hstep; [|done]
    | context [CircularQueueMP.push_esp8266 ?v ?m] =>
        let H := fresh "Hp" in
        destruct (CircularQueueMP.push_esp8266 v m) as [[??]|] eqn:H; simpl in Hstep; [|done];
        apply push_esp8266_wf in H as [??]; [|done]
    | context [Atomic.compare_exchange ?s ?c ?e ?d] =>
        unfold Atomic.compare_exchange in Hstep
    | context [if ?b then _ else _] => destruct b eqn:?; simpl in Hstep
    | context [match ?k with Atomic.from_user => _ | _ => _ end] => destruct k
    | context [match ?k with O => _ | _ => _ end] => destruct k
    | context [_ !! _] => destruct (_ !! _); simpl in Hstep; [|done]
    end;
    try done;
    injection Hstep as <- <-;
    (split; [|split]); try done;
    try apply popn_copy_ok; try apply popn_copied_ok;
    try (constructor; [constructor|..]);
    unfold CircularQueueMP.m_bufSize, CircularQueueMP.m_inPosT,
      CircularQueueMP.m_outPos, CircularQueueMP.m_buffer in *;
    simpl in *; try done; congruence.
Qed.

Lemma enter_ok n (c : Atomic.call T) : thread_ok n (Atomic.enter c).
Proof. by destruct c. Qed.

Lemma fire_inv e (cfg cfg' : Atomic.config T) :
  inv cfg → Atomic.fire e cfg = Some cfg' →
  inv cfg' ∧
  CircularQueueMP.m_bufSize (Atomic.queue cfg') = CircularQueueMP.m_bufSize (Atomic.queue cfg).
Proof.
  intros [Hm Hths] Hfire. destruct e as [i c|i spurious]; simpl in Hfire.
  - destruct (Atomic.threads cfg !! i) as [th|] eqn:Hi; [|done]. simpl in Hfire.
    destruct th; try done. injection Hfire as <-.
    split; [|done]. split; [done|]. simpl.
    apply Forall_insert; [done|apply enter_ok].
  - destruct (Atomic.threads cfg !! i) as [th|] eqn:Hi; [|done]. simpl in Hfire.
    destruct (Atomic.step _ _ _) as [[th' m']|] eqn:Hstep; [|done].
    injection Hfire as <-.
    eapply step_inv in Hstep as (Hm' & Hth' & Hn); [|done|].
    + split; [|done]. split; [done|]. simpl. rewrite Hn in *.
      by apply Forall_insert.
    + by eapply Forall_lookup_1 in Hths.
Qed.

Lemma exec_inv evs (cfg cfg' : Atomic.config T) :
  inv cfg → Atomic.exec evs cfg = Some cfg' →
  inv cfg' ∧
  CircularQueueMP.m_bufSize (Atomic.queue cfg') = CircularQueueMP.m_bufSize (Atomic.queue cfg).
Proof.
  revert cfg. induction evs as [|e evs IH]; intros cfg Hinv Hexec; simpl in Hexec.
  - by injection Hexec as <-.
  - destruct (Atomic.fire e cfg) as [cfg1|] eqn:Hfire; [|done]. simpl in Hexec.
    apply fire_inv in Hfire as [Hinv1 Hn1]; [|done].
    apply IH in Hexec as [? Hn]; [|done]. split; [done|congruence].
Qed.

Lemma start_inv (m : CircularQueueMP.t T) nthreads :
  wfMP m → inv (Atomic.start m nthreads).
Proof.
  intros Hm. split; [done|]. simpl. by apply Forall_replicate.
Qed.

Lemma reachable_from_inv capacity (cfg : Atomic.config T) :
  reachable_from capacity cfg →
  inv cfg ∧
  CircularQueueMP.m_bufSize (Atomic.queue cfg) = to_int (size_add capacity 1).
Proof.
  intros (granted & fresh & q0 & n & evs & Hnew & Hexec).
  pose proof Hnew as Hnew'. apply newMP_wf in Hnew as (Hwf & _ & _).
  eapply exec_inv in Hexec as [? Hn]; [|by apply start_inv].
  split; [done|]. rewrite Hn. simpl.
  unfold CircularQueueMP.new in Hnew'.
  destruct (CircularQueue.new _ _ _) as [b|] eqn:Hb; [|done].
  injection Hnew' as <-. by apply new_wf in Hb as (_ & _ & _ & ?).
Qed.

Lemma reachable_wf (q : CircularQueue.t T) : reachable q → wf q.
Proof.
  intros (capacity & cfg & Hr & <-).
  by apply reachable_from_inv in Hr as [[[] _] _].
Qed.

End Invariant.

(** ** The member functions on a well-formed queue *)

Section Sequential.
Context {T : Type} `{!ValueInit T}.
Implicit Types (q : CircularQueue.t T) (buf : list T) (n i o k : nat).

Lemma wf_of_nats q :
  wf q → 0 < CircularQueue.m_bufSize q →
  ∃ n buf i o, q = of_nats n buf i o ∧ Z.of_nat n ≤ INT_MAX ∧
    length buf = n ∧ (i < n)%nat ∧ (o < n)%nat.
Proof.
  destruct q as [N buf I O]. intros [Hn Hlen Hi Ho] Hpos; simpl in *.
  unfold cursor_ok in *.
  exists (Z.to_nat N), buf, (Z.to_nat I), (Z.to_nat O). unfold of_nats.
  rewrite !Z2Nat.id by lia. repeat split; lia.
Qed.

Lemma wf_degenerate q :
  wf q → CircularQueue.m_bufSize q ≤ 0 → q = CircularQueue.mk 0 [] 0 0.
Proof.
  destruct q as [N buf I O]. intros [Hn Hlen Hi Ho] Hpos; simpl in *.
  unfold cursor_ok in *. destruct buf; simpl in *; [|lia]. f_equal; lia.
Qed.

Lemma of_nats_wf n buf i o :
  Z.of_nat n ≤ INT_MAX → length buf = n → (i < n)%nat → (o < n)%nat →
  wf (of_nats n buf i o).
Proof. intros. constructor; unfold cursor_ok; simpl; lia. Qed.

Lemma slot_lt n o k : (o < n)%nat → (k < n)%nat → (slot n o k < n)%nat.
Proof. unfold slot. intros. case_decide; lia. Qed.

Lemma slot_mod n o k :
  (o < n)%nat → (k ≤ n)%nat →
  (Z.of_nat o + Z.of_nat k) mod Z.of_nat n = Z.of_nat (slot n o k).
Proof.
  intros. unfold slot. case_decide.
  - rewrite Z.mod_small; lia.
  - symmetry. apply (Z.mod_unique_pos _ _ 1); lia.
Qed.

Lemma available_of_nats n buf i o :
  Z.of_nat n ≤ INT_MAX → (i < n)%nat → (o < n)%nat →
  CircularQueue.available (of_nats n buf i o) = Z.of_nat (used n i o).
Proof.
  intros. unfold CircularQueue.available, of_nats, used, int_sub, int_add; simpl.
  unfold INT_MAX in *.
  rewrite (to_int_id (_ - _)) by (unfold INT_MIN, INT_MAX; lia).
  destruct (Z.ltb_spec (Z.of_nat i - Z.of_nat o) 0); case_decide; try lia.
  - rewrite to_int_id by (unfold INT_MIN, INT_MAX; lia).
    rewrite to_size_id by (unfold SIZE_MAX; lia). lia.
  - rewrite to_size_id by (unfold SIZE_MAX; lia). lia.
Qed.

Lemma availableForWrite_of_nats n buf i o :
  Z.of_nat n ≤ INT_MAX → (i < n)%nat → (o < n)%nat →
  CircularQueue.availableForWrite (of_nats n buf i o) = Z.of_nat (free n i o).
Proof.
  intros. unfold CircularQueue.availableForWrite, of_nats, free, int_sub, int_add; simpl.
  unfold INT_MAX in *.
  rewrite (to_int_id (_ - Z.of_nat i)) by (unfold INT_MIN, INT_MAX; lia).
  rewrite (to_int_id (_ - 1)) by (unfold INT_MIN, INT_MAX; lia).
  destruct (Z.ltb_spec (Z.of_nat o - Z.of_nat i - 1) 0); case_decide; try lia.
  - rewrite to_int_id by (unfold INT_MIN, INT_MAX; lia).
    rewrite to_size_id by (unfold SIZE_MAX; lia). lia.
  - rewrite to_size_id by (unfold SIZE_MAX; lia). lia.
Qed.

Lemma used_lt n i o : (i < n)%nat → (o < n)%nat → (used n i o < n)%nat.
Proof. unfold used. intros. case_decide; lia. Qed.

Lemma used_free n i o :
  (i < n)%nat → (o < n)%nat → (used n i o + free n i o = n - 1)%nat.
Proof. unfold used, free. intros. repeat case_decide; lia. Qed.

Lemma contents_of_nats n buf i o :
  Z.of_nat n ≤ INT_MAX → (i < n)%nat → (o < n)%nat →
  contents (of_nats n buf i o) = take (used n i o) (drop o (buf ++ buf)).
Proof.
  intros. unfold contents. rewrite available_of_nats by done.
  unfold of_nats; simpl. by rewrite !Nat2Z.id.
Qed.

Lemma length_contents n buf i o :
  Z.of_nat n ≤ INT_MAX → length buf = n → (i < n)%nat → (o < n)%nat →
  length (contents (of_nats n buf i o)) = used n i o.
Proof.
  intros. rewrite contents_of_nats by done.
  rewrite length_take, length_drop, length_app.
  pose proof (used_lt n i o). lia.
Qed.

Lemma lookup_contents n buf i o k :
  Z.of_nat n ≤ INT_MAX → length buf = n → (i < n)%nat → (o < n)%nat →
  (k < used n i o)%nat →
  contents (of_nats n buf i o) !! k = buf !! slot n o k.
Proof.
  intros. rewrite contents_of_nats by done.
  rewrite lookup_take_lt by done. rewrite lookup_drop.
  unfold slot. case_decide.
  - by rewrite lookup_app_l by lia.
  - rewrite lookup_app_r by lia. f_equal. lia.
Qed.

Lemma slot_0 n o : (o < n)%nat → slot n o 0 = o.
Proof. unfold slot. intros. case_decide; lia. Qed.

Lemma slot_slot n o k :
  (o < n)%nat → (k < n)%nat → slot n (slot n o 1) k = slot n o (S k).
Proof. unfold slot. intros. repeat case_decide; lia. Qed.

Lemma slot_used n i o : (i < n)%nat → (o < n)%nat → slot n o (used n i o) = i.
Proof. unfold slot, used. intros. repeat case_decide; lia. Qed.

Lemma slot_not_used n i o k :
  (i < n)%nat → (o < n)%nat → (k < used n i o)%nat → slot n o k ≠ i.
Proof. unfold slot, used. intros ???. repeat case_decide; lia. Qed.

Lemma next_of_nats n c :
  Z.of_nat n ≤ INT_MAX → (c < n)%nat →
  int_rem (int_add (Z.of_nat c) 1) (Z.of_nat n) = Some (Z.of_nat (slot n c 1)).
Proof.
  intros. rewrite next_cursor; [|lia|unfold cursor_ok; lia].
  destruct (Z.eqb_spec (Z.of_nat n) 0); [lia|].
  f_equal. change 1 with (Z.of_nat 1). apply slot_mod; lia.
Qed.

(** *** pop *)

Lemma pop_of_nats n buf i o :
  Z.of_nat n ≤ INT_MAX → length buf = n → (i < n)%nat → (o < n)%nat → i ≠ o →
  ∃ v, buf !! o = Some v ∧
    CircularQueue.pop (of_nats n buf i o) = Some (v, of_nats n buf i (slot n o 1)).
Proof.
  intros Hn Hlen Hi Ho Hne.
  destruct (lookup_lt_is_Some_2 buf o) as [v Hv]; [lia|].
  exists v. split; [done|].
  unfold CircularQueue.pop, of_nats; simpl.
  destruct (Z.eqb_spec (Z.of_nat i) (Z.of_nat o)); [lia|].
  unfold array_load. destruct (Z.ltb_spec (Z.of_nat o) 0); [lia|].
  rewrite Nat2Z.id, Hv; simpl. by rewrite next_of_nats.
Qed.

Lemma contents_pop n buf i o v :
  Z.of_nat n ≤ INT_MAX → length buf = n → (i < n)%nat → (o < n)%nat → i ≠ o →
  buf !! o = Some v →
  contents (of_nats n buf i o) = v :: contents (of_nats n buf i (slot n o 1)).
Proof.
  intros Hn Hlen Hi Ho Hne Hv.
  assert (slot n o 1 < n)%nat as Ho' by (apply slot_lt; lia).
  assert (used n i o = S (used n i (slot n o 1))) as Hused
    by (unfold used, slot; repeat case_decide; lia).
  apply list_eq. intros [|k]; simpl.
  - rewrite lookup_contents by (done || lia). by rewrite slot_0.
  - destruct (decide (k < used n i (slot n o 1))%nat).
    + rewrite !lookup_contents by (done || lia).
      pose proof (used_lt n i (slot n o 1)). by rewrite slot_slot by lia.
    + rewrite !lookup_ge_None_2; [done|rewrite length_contents by done; lia..].
Qed.

Lemma pops_of_nats k n buf i o :
  Z.of_nat n ≤ INT_MAX → length buf = n → (i < n)%nat → (o < n)%nat →
  (k ≤ used n i o)%nat →
  pops k (of_nats n buf i o) =
    Some (take k (contents (of_nats n buf i o)), of_nats n buf i (slot n o k)).
Proof.
  intros Hn Hlen Hi. revert o. induction k as [|k IH]; intros o Ho Hk; simpl.
  - by rewrite slot_0.
  - assert (i ≠ o) as Hne by (intros ->; unfold used in Hk; case_decide; lia).
    destruct (pop_of_nats n buf i o) as (v & Hv & ->); [done..|]. simpl.
    assert (slot n o 1 < n)%nat as Ho' by (apply slot_lt; lia).
    assert (used n i o = S (used n i (slot n o 1))) as Hused
      by (unfold used, slot; repeat case_decide; lia).
    rewrite IH by (done || lia). simpl.
    rewrite (contents_pop n buf i o v) by done. simpl.
    pose proof (used_lt n i (slot n o 1)). by rewrite slot_slot by lia.
Qed.

(** *** push *)

Lemma push_full n buf i o val :
  Z.of_nat n ≤ INT_MAX → (i < n)%nat → (o < n)%nat → free n i o = 0%nat →
  CircularQueue.push val (of_nats n buf i o) = Some (false, of_nats n buf i o).
Proof.
  intros Hn Hi Ho Hfree. unfold CircularQueue.push; simpl.
  rewrite next_of_nats by done. simpl.
  assert (slot n i 1 = o) as ->
    by (unfold free, slot in *; repeat case_decide; lia).
  by rewrite Z.eqb_refl.
Qed.

Lemma push_of_nats n buf i o val :
  Z.of_nat n ≤ INT_MAX → length buf = n → (i < n)%nat → (o < n)%nat →
  free n i o ≠ 0%nat →
  CircularQueue.push val (of_nats n buf i o) =
    Some (true, of_nats n (<[i := val]> buf) (slot n i 1) o).
Proof.
  intros Hn Hlen Hi Ho Hfree. unfold CircularQueue.push; simpl.
  rewrite next_of_nats by done. simpl.
  assert (slot n i 1 ≠ o) by (unfold free, slot in *; repeat case_decide; lia).
  destruct (Z.eqb_spec (Z.of_nat (slot n i 1)) (Z.of_nat o)); [lia|].
  unfold array_store.
  destruct (Z.leb_spec 0 (Z.of_nat i)); [|lia].
  destruct (Z.ltb_spec (Z.of_nat i) (Z.of_nat (length buf))); [|lia].
  simpl. by rewrite Nat2Z.id.
Qed.

Lemma contents_push n buf i o val :
  Z.of_nat n ≤ INT_MAX → length buf = n → (i < n)%nat → (o < n)%nat →
  free n i o ≠ 0%nat →
  contents (of_nats n (<[i := val]> buf) (slot n i 1) o) =
    contents (of_nats n buf i o) ++ [val].
Proof.
  intros Hn Hlen Hi Ho Hfree.
  assert (slot n i 1 < n)%nat as Hi' by (unfold slot; case_decide; lia).
  assert (used n (slot n i 1) o = S (used n i o)) as Hused
    by (unfold used, free, slot in *; repeat case_decide; lia).
  assert (length (<[i := val]> buf) = n) as Hlen' by by rewrite length_insert.
  pose proof (length_contents n buf i o Hn Hlen Hi Ho) as Hl.
  apply list_eq. intros k.
  destruct (decide (k < used n i o)%nat); [|destruct (decide (k = used n i o))].
  - rewrite lookup_contents by (done || lia).
    rewrite lookup_app_l by lia. rewrite lookup_contents by done.
    apply list_lookup_insert_ne. intros Heq.
    by apply (slot_not_used n i o k).
  - subst k. rewrite lookup_contents by (done || lia).
    rewrite slot_used by done.
    rewrite lookup_app_r by lia. rewrite Hl, Nat.sub_diag. simpl.
    apply list_lookup_insert_eq. lia.
  - rewrite !lookup_ge_None_2; [done| |].
    + rewrite length_app, Hl. simpl. lia.
    + rewrite length_contents by done. lia.
Qed.

Lemma pushes_of_nats vs n buf i o :
  Z.of_nat n ≤ INT_MAX → length buf = n → (i < n)%nat → (o < n)%nat →
  (length vs ≤ free n i o)%nat →
  ∃ buf', length buf' = n ∧
    pushes vs (of_nats n buf i o) =
      Some (replicate (length vs) true, of_nats n buf' (slot n i (length vs)) o) ∧
    contents (of_nats n buf' (slot n i (length vs)) o) =
      contents (of_nats n buf i o) ++ vs.
Proof.
  intros Hn. revert buf i. induction vs as [|v vs IH]; intros buf i Hlen Hi Ho Hvs; simpl in *.
  - exists buf. rewrite slot_0 by done. by rewrite app_nil_r.
  - assert (slot n i 1 < n)%nat as Hi' by (unfold slot; case_decide; lia).
    assert (free n i o = S (free n (slot n i 1) o)) as Hfree
      by (unfold free, slot in *; repeat case_decide; lia).
    rewrite push_of_nats by (done || lia). simpl.
    destruct (IH (<[i := v]> buf) (slot n i 1)) as (buf' & Hlen' & -> & Hc);
      [by rewrite length_insert|done|done|lia|].
    pose proof (used_free n (slot n i 1) o Hi' Ho).
    assert (slot n (slot n i 1) (length vs) = slot n i (S (length vs))) as Hs
      by (apply slot_slot; lia).
    rewrite Hs in *.
    exists buf'. split; [done|]. split; [done|].
    rewrite Hc, contents_push by (done || lia). by rewrite <-app_assoc.
Qed.

(** *** pop_n *)

Lemma copy_n_spec (src : list T) first k (out : list T) pos :
  (first + k ≤ length src)%nat → (pos + k ≤ length out)%nat →
  copy_n src first k out pos =
    Some (take pos out ++ take k (drop first src) ++ drop (pos + k) out, (pos + k)%nat).
Proof.
  revert first out pos. induction k as [|k IH]; intros first out pos Hsrc Hout; simpl.
  - rewrite Nat.add_0_r. by rewrite take_drop.
  - destruct (lookup_lt_is_Some_2 src first) as [x Hx]; [lia|].
    rewrite Hx; simpl. case_decide; [|lia].
    rewrite IH by (rewrite ?length_insert; lia).
    rewrite (drop_S _ _ _ Hx). simpl.
    rewrite take_insert_lt by lia.
    rewrite drop_insert_lt by lia.
    destruct (lookup_lt_is_Some_2 out pos) as [y Hy]; [done|].
    rewrite (take_S_r _ _ _ Hy).
    rewrite insert_app_r_alt by (rewrite length_take; lia).
    rewrite length_take. replace (pos - pos `min` length out)%nat with 0%nat by lia.
    simpl. rewrite <-app_assoc. simpl.
    by replace (pos + S k)%nat with (S (pos + k)) by lia.
Qed.

Lemma take_contents m n buf i o :
  Z.of_nat n ≤ INT_MAX → length buf = n → (i < n)%nat → (o < n)%nat →
  (m ≤ used n i o)%nat →
  take m (contents (of_nats n buf i o)) =
    take (m `min` (n - o)) (drop o buf) ++ take (m - m `min` (n - o)) buf.
Proof.
  intros Hn Hlen Hi Ho Hm. rewrite contents_of_nats by done.
  rewrite take_take, Nat.min_l by done.
  rewrite drop_app_le by lia. rewrite take_app, length_drop.
  pose proof (used_lt n i o Hi Ho).
  destruct (decide (m ≤ n - o)%nat).
  - rewrite !Nat.min_l by lia. rewrite Hlen.
    by replace (m - (n - o))%nat with (m - m)%nat by lia.
  - rewrite !Nat.min_r by lia. rewrite Hlen.
    by rewrite !(take_ge (drop _ _)) by (rewrite length_drop; lia).
Qed.

Lemma pop_n_of_nats n buf i o buffer size :
  Z.of_nat n ≤ INT_MAX → length buf = n → (i < n)%nat → (o < n)%nat →
  0 ≤ size →
  let m := Z.to_nat (Z.min size (Z.of_nat (used n i o))) in
  (m ≤ length buffer)%nat →
  CircularQueue.pop_n buffer size (of_nats n buf i o) =
    Some (Z.of_nat m,
          take m (contents (of_nats n buf i o)) ++ drop m buffer,
          of_nats n buf i (slot n o m)).
Proof.
  intros Hn Hlen Hi Ho Hsize m Hm.
  pose proof (used_lt n i o Hi Ho) as Hused.
  assert (m ≤ used n i o)%nat as Hmu by lia.
  unfold CircularQueue.pop_n. rewrite available_of_nats by done.
  replace (Z.min size (Z.of_nat (used n i o))) with (Z.of_nat m) by lia.
  destruct (Z.eqb_spec (Z.of_nat m) 0) as [Hz|Hz].
  { replace m with 0%nat by lia. by rewrite slot_0. }
  simpl. destruct (Z.ltb_spec (Z.of_nat o) 0); [lia|].
  unfold int_sub, size_sub, size_add, INT_MAX in *.
  rewrite to_int_id by (unfold INT_MIN, INT_MAX; lia).
  rewrite (to_size_id (Z.of_nat o)), (to_size_id (Z.of_nat n))
    by (unfold SIZE_MAX; lia).
  rewrite (to_size_id (Z.of_nat n - Z.of_nat o)) by (unfold SIZE_MAX; lia).
  replace (Z.min (Z.of_nat m) (Z.of_nat n - Z.of_nat o))
    with (Z.of_nat (m `min` (n - o))) by lia.
  set (n1 := (m `min` (n - o))%nat).
  rewrite !Nat2Z.id.
  rewrite copy_n_spec by lia. simpl.
  rewrite (to_size_id (_ - _)) by (unfold SIZE_MAX; lia).
  rewrite (to_size_id (_ + _)) by (unfold SIZE_MAX; lia).
  assert (size_rem (Z.of_nat o + Z.of_nat m) (Z.of_nat n)
          = Some (Z.of_nat (slot n o m))) as ->.
  { unfold size_rem. destruct (Z.eqb_spec (Z.of_nat n) 0); [lia|].
    by rewrite slot_mod by lia. }
  assert (to_int (Z.of_nat (slot n o m)) = Z.of_nat (slot n o m)) as Hnext
    by (pose proof (slot_lt n o m); apply to_int_id; unfold INT_MIN, INT_MAX; lia).
  rewrite take_contents by done. fold n1.
  assert (length (take n1 (drop o buf)) = n1) as Hl1
    by (rewrite length_take, length_drop; lia).
  destruct (Z.ltb_spec 0 (Z.of_nat m - Z.of_nat n1)).
  - replace (Z.to_nat (Z.of_nat m - Z.of_nat n1)) with (m - n1)%nat by lia.
    rewrite copy_n_spec by (rewrite ?length_app, ?length_drop, ?Hl1; lia).
    simpl. rewrite Hnext. do 2 f_equal.
    rewrite take_app_length' by done.
    rewrite drop_app_ge by lia. rewrite Hl1, drop_drop.
    rewrite <-app_assoc, drop_0.
    by replace (n1 + (n1 + (m - n1) - n1))%nat with m by lia.
  - simpl. rewrite Hnext. replace (m - n1)%nat with 0%nat by lia.
    rewrite take_0, app_nil_r. by replace (drop m buffer) with (drop n1 buffer) by (f_equal; lia).
Qed.

(** *** Every reachable queue is degenerate or given by natural numbers *)

Lemma wf_cases q :
  wf q →
  q = CircularQueue.mk 0 [] 0 0 ∨
  ∃ n buf i o, q = of_nats n buf i o ∧ Z.of_nat n ≤ INT_MAX ∧
    length buf = n ∧ (i < n)%nat ∧ (o < n)%nat.
Proof.
  intros Hq. destruct (decide (0 < CircularQueue.m_bufSize q)).
  - right. by apply wf_of_nats.
  - left. apply wf_degenerate; [done|lia].
Qed.

Lemma fresh_of_nats granted capacity fresh q :
  CircularQueue.new granted capacity fresh = Some q → 0 < CircularQueue.m_bufSize q →
  ∃ n buf, q = of_nats n buf 0 0 ∧ Z.of_nat n ≤ INT_MAX ∧ length buf = n ∧ (0 < n)%nat.
Proof.
  intros Hnew Hpos. apply new_wf in Hnew as (Hwf & Hi & Ho & _).
  apply wf_of_nats in Hwf as (n & buf & i & o & -> & ? & ? & ? & ?); [|done].
  simpl in *. exists n, buf. replace i with 0%nat by lia. replace o with 0%nat by lia.
  repeat split; (done || lia).
Qed.

Lemma new_in_range granted capacity fresh q :
  0 ≤ capacity → capacity + 1 ≤ INT_MAX →
  CircularQueue.new granted capacity fresh = Some q →
  CircularQueue.m_bufSize q = capacity + 1.
Proof.
  intros H0 Hmax Hnew. apply new_wf in Hnew as (_ & _ & _ & ->). unfold size_add.
  rewrite to_size_id by (unfold INT_MAX, SIZE_MAX in *; lia).
  by rewrite to_int_id by (unfold INT_MAX, INT_MIN in *; lia).
Qed.

End Sequential.

(** ** The specification's claims about the sequential behaviour *)

Section Claims.
Context {T : Type} `{!ValueInit T}.
Implicit Types (q : CircularQueue.t T).

(** C2 (as amended).  For every capacity [C] with [1 ≤ C] and
    [C + 1 ≤ INT_MAX] (the slot count [C + 1] is held in the [int]
    [m_bufSize]) and every queue [q0] the constructor yields for it
    (whatever the cells hold; the allocation may be refused, and then there
    is no queue), starting from [q0] any [k ≤ C] consecutive calls of [push]
    return true and leave [availableForWrite() = C - k] (so [C] before any
    push, one less after each accepted push), and the [(C+1)]-th call returns
    false. *)
Theorem capacity_pushes_accepted granted C (fresh : nat → T) q0 :
  1 ≤ C → C + 1 ≤ INT_MAX →
  CircularQueue.new granted C fresh = Some q0 → accepts_exactly C q0.
Proof.
  intros HC Hmax Hnew.
  assert (0 ≤ C) as H0 by lia.
  pose proof (new_in_range _ _ _ _ H0 Hmax Hnew) as HN.
  destruct (fresh_of_nats _ _ _ _ Hnew) as (n & buf & -> & Hn & Hlen & Hpos); [lia|].
  simpl in HN. intros vs Hvs.
  assert (free n 0 0 = (n - 1)%nat) as Hfree by (unfold free; case_decide; lia).
  destruct (pushes_of_nats vs n buf 0 0) as (buf' & Hlen' & Hpush & _);
    [done|done|lia|lia|lia|].
  eexists. split; [exact Hpush|].
  assert (slot n 0 (length vs) < n)%nat as Hi by (unfold slot; case_decide; lia).
  rewrite availableForWrite_of_nats by (done || lia).
  assert (free n (slot n 0 (length vs)) 0 = (n - 1 - length vs)%nat) as Hfree'
    by (unfold free, slot; repeat case_decide; lia).
  split; [lia|]. intros Hfull v.
  apply push_full; (done || lia).
Qed.

(** C3.  For every reachable state and every requested count [size],
    [pop_n(buffer, size)] (the caller's [buffer] having room for the
    elements copied) returns [n = min(size, available())], leaves in the
    first [n] cells of [buffer] exactly the values that [n] successive calls
    of [pop()] return, in that order, leaves the rest of [buffer] untouched,
    and ends in the same state as those [n] calls, the read cursor advanced
    by [n] modulo the slot count; also when the range wraps past the end of
    the storage. *)
Theorem pop_n_same_as_pops q (buffer : list T) size :
  reachable q → 0 ≤ size →
  let n := Z.min size (CircularQueue.available q) in
  (Z.to_nat n ≤ length buffer)%nat →
  ∃ xs q',
    pops (Z.to_nat n) q = Some (xs, q') ∧
    CircularQueue.pop_n buffer size q = Some (n, xs ++ drop (Z.to_nat n) buffer, q') ∧
    length xs = Z.to_nat n ∧
    CircularQueue.m_outPos q' =
      (CircularQueue.m_outPos q + n) mod CircularQueue.m_bufSize q.
Proof.
  intros Hq Hsize n Hbuf. apply reachable_wf in Hq.
  destruct (wf_cases q Hq) as [->|(N & buf & i & o & -> & HN & Hlen & Hi & Ho)].
  - subst n. unfold CircularQueue.available in *; simpl in *.
    change (to_size (int_sub 0 0)) with 0 in *.
    replace (Z.min size 0) with 0 in * by lia. simpl.
    exists [], (CircularQueue.mk 0 [] 0 0). repeat split.
    unfold CircularQueue.pop_n, CircularQueue.available; simpl.
    change (to_size (int_sub 0 0)) with 0.
    by replace (Z.min size 0) with 0 by lia.
  - subst n. rewrite available_of_nats in * by done.
    set (m := Z.to_nat (Z.min size (Z.of_nat (used N i o)))) in *.
    pose proof (used_lt N i o Hi Ho).
    assert (m ≤ used N i o)%nat by lia.
    replace (Z.min size (Z.of_nat (used N i o))) with (Z.of_nat m) by lia.
    exists (take m (contents (of_nats N buf i o))), (of_nats N buf i (slot N o m)).
    split; [by apply pops_of_nats|].
    split; [by apply pop_n_of_nats|].
    split; [rewrite length_take, length_contents by done; lia|].
    simpl. by rewrite slot_mod by lia.
Qed.

(** C4 (as amended).  An empty queue of capacity [C] (a reachable queue of
    [C + 1] slots whose cursors are equal) exists only for [0 ≤ C] with
    [C + 1 ≤ INT_MAX], the slot count being held in the [int] [m_bufSize].
    For every such queue and every sequence [vs] of at most [C] values
    pushed into it in order, with no pop in between, every push is accepted
    and [length vs] successive calls of [pop()] return exactly [vs], in
    order.  (For capacity [SIZE_MAX] the constructed queue has no slot and
    its first push is undefined.) *)
Theorem fifo_round_trip C q (vs : list T) :
  reachable q → CircularQueue.m_bufSize q = C + 1 → empty q →
  Z.of_nat (length vs) ≤ C →
  (0 ≤ C ∧ C + 1 ≤ INT_MAX) ∧
  ∃ q1 q2,
    pushes vs q = Some (replicate (length vs) true, q1) ∧
    pops (length vs) q1 = Some (vs, q2) ∧
    empty q2.
Proof.
  intros Hq HC Hempty Hvs. apply reachable_wf in Hq.
  split; [destruct Hq as [Hn _ _ _]; lia|].
  destruct (wf_cases q Hq) as [->|(N & buf & i & o & -> & HN & Hlen & Hi & Ho)].
  { simpl in HC. lia. }
  unfold empty in Hempty. simpl in *. assert (o = i) as -> by lia.
  assert (free N i i = (N - 1)%nat) as Hfree by (unfold free; case_decide; lia).
  assert (used N i i = 0%nat) as Hused by (unfold used; case_decide; lia).
  destruct (pushes_of_nats vs N buf i i) as (buf' & Hlen' & Hpush & Hc);
    [done|done|lia|lia|lia|].
  assert (slot N i (length vs) < N)%nat as Hi' by (unfold slot; case_decide; lia).
  assert (used N (slot N i (length vs)) i = length vs) as Hused'
    by (unfold used, slot; repeat case_decide; lia).
  rewrite (contents_of_nats N buf i i), Hused, take_0 in Hc by done. simpl in Hc.
  eexists _, _. split; [exact Hpush|].
  rewrite pops_of_nats by (done || lia). rewrite Hc, firstn_all.
  by split.
Qed.

(** C5.  In every state, [flush()] sets the read cursor to the current write
    cursor and leaves the write cursor (and the storage) unchanged; right
    after it [available()] returns 0 and [pop()] returns the default value,
    however many unread elements there were. *)
Theorem flush_discards_all q :
  let q' := CircularQueue.flush q in
  CircularQueue.m_outPos q' = CircularQueue.m_inPosT q ∧
  CircularQueue.m_inPosT q' = CircularQueue.m_inPosT q ∧
  CircularQueue.m_buffer q' = CircularQueue.m_buffer q ∧
  CircularQueue.available q' = 0 ∧
  CircularQueue.pop q' = Some (CircularQueue.defaultValue, q').
Proof.
  simpl. repeat split.
  - unfold CircularQueue.available, int_sub; simpl. by rewrite Z.sub_diag.
  - unfold CircularQueue.pop; simpl. by rewrite Z.eqb_refl.
Qed.

(** C6.  In every reachable state: if the read cursor equals the write
    cursor, [pop()] returns the default value (and changes nothing);
    otherwise it returns the element stored in slot [m_outPos] and advances
    [m_outPos] to [(m_outPos + 1) mod m_bufSize]. *)
Theorem pop_empty_or_oldest q :
  reachable q →
  (empty q → CircularQueue.pop q = Some (CircularQueue.defaultValue, q)) ∧
  (¬ empty q →
   ∃ v, CircularQueue.m_buffer q !! Z.to_nat (CircularQueue.m_outPos q) = Some v ∧
     CircularQueue.pop q =
       Some (v, CircularQueue.set_outPos
                  ((CircularQueue.m_outPos q + 1) mod CircularQueue.m_bufSize q) q)).
Proof.
  intros Hq. split.
  - unfold empty, CircularQueue.pop. intros ->. by rewrite Z.eqb_refl.
  - intros Hne. apply reachable_wf in Hq.
    destruct (wf_cases q Hq) as [->|(N & buf & i & o & -> & HN & Hlen & Hi & Ho)].
    { by destruct Hne. }
    unfold empty in Hne; simpl in *.
    destruct (pop_of_nats N buf i o) as (v & Hv & Hpop); [done..|lia|].
    exists v. rewrite Nat2Z.id. split; [done|].
    rewrite Hpop. unfold of_nats, CircularQueue.set_outPos; simpl.
    change 1 with (Z.of_nat 1). by rewrite slot_mod by lia.
Qed.

(** C7.  Whenever the queue is full, that is [(m_inPosT + 1) mod m_bufSize]
    equals [m_outPos], [push(val)] returns false and leaves the write cursor,
    the read cursor and every storage slot as they were. *)
Theorem push_full_refused q val :
  reachable q → full q → CircularQueue.push val q = Some (false, q).
Proof.
  intros Hq Hfull. apply reachable_wf in Hq. unfold full in Hfull.
  destruct (wf_cases q Hq) as [->|(N & buf & i & o & -> & HN & Hlen & Hi & Ho)];
    [done|].
  simpl in *. apply push_full; try done.
  change 1 with (Z.of_nat 1) in Hfull. rewrite slot_mod in Hfull by lia.
  unfold slot, free in *. repeat case_decide; lia.
Qed.

(** *** Further properties of the specification's component design *)

Lemma used_mod n i o :
  (i < n)%nat → (o < n)%nat →
  Z.of_nat (used n i o) = (Z.of_nat i - Z.of_nat o) mod Z.of_nat n.
Proof.
  intros. unfold used. case_decide.
  - rewrite Z.mod_small; lia.
  - apply (Z.mod_unique_pos _ _ (-1)); lia.
Qed.

Lemma free_mod n i o :
  (i < n)%nat → (o < n)%nat →
  Z.of_nat (free n i o) = (Z.of_nat o - Z.of_nat i - 1) mod Z.of_nat n.
Proof.
  intros. unfold free. case_decide.
  - rewrite Z.mod_small; lia.
  - apply (Z.mod_unique_pos _ _ (-1)); lia.
Qed.

(** Spec 4.1, [available] and [availableForWrite].  In every reachable state
    of a queue with at least one slot, [available()] is
    [(m_inPosT - m_outPos) mod m_bufSize], [availableForWrite()] is
    [(m_outPos - m_inPosT - 1) mod m_bufSize], and the two add up to the
    capacity [m_bufSize - 1]. *)
Theorem available_counts q :
  reachable q → 0 < CircularQueue.m_bufSize q →
  CircularQueue.available q =
    (CircularQueue.m_inPosT q - CircularQueue.m_outPos q) mod CircularQueue.m_bufSize q ∧
  CircularQueue.availableForWrite q =
    (CircularQueue.m_outPos q - CircularQueue.m_inPosT q - 1)
      mod CircularQueue.m_bufSize q ∧
  CircularQueue.available q + CircularQueue.availableForWrite q
    = CircularQueue.m_bufSize q - 1.
Proof.
  intros Hq Hpos. apply reachable_wf in Hq.
  apply wf_of_nats in Hq as (n & buf & i & o & -> & Hn & Hlen & Hi & Ho); [|done].
  rewrite available_of_nats, availableForWrite_of_nats by done. simpl.
  rewrite <-used_mod, <-free_mod by done.
  pose proof (used_free n i o Hi Ho). split_and!; (done || lia).
Qed.

(** Spec 8, empty semantics.  Every queue the constructor yields for a
    capacity whose slot count fits an [int] has [available() = 0] and
    [availableForWrite() = capacity], and [pop()] and [peek()] return the
    default value and leave it as it is. *)
Theorem fresh_queue_is_empty granted capacity (fresh : nat → T) q0 :
  0 ≤ capacity → capacity + 1 ≤ INT_MAX →
  CircularQueue.new granted capacity fresh = Some q0 →
  CircularQueue.available q0 = 0 ∧
  CircularQueue.availableForWrite q0 = capacity ∧
  CircularQueue.pop q0 = Some (CircularQueue.defaultValue, q0) ∧
  CircularQueue.peek q0 = Some CircularQueue.defaultValue.
Proof.
  intros H0 Hmax Hnew.
  pose proof (new_in_range _ _ _ _ H0 Hmax Hnew) as HN.
  destruct (fresh_of_nats _ _ _ _ Hnew) as (n & buf & -> & Hn & Hlen & Hpos); [lia|].
  simpl in HN.
  rewrite available_of_nats, availableForWrite_of_nats by (done || lia).
  unfold used, free. repeat case_decide; try lia.
  split_and!; try done; lia.
Qed.

(** Spec 4.1, [peek].  In every reachable state [peek()] returns what
    [pop()] returns; being a function of the state only, it advances no
    cursor. *)
Theorem peek_as_pop q :
  reachable q → CircularQueue.peek q = fst <$> CircularQueue.pop q.
Proof.
  intros Hq. apply reachable_wf in Hq.
  destruct (wf_cases q Hq) as [->|(n & buf & i & o & -> & Hn & Hlen & Hi & Ho)];
    [done|].
  destruct (decide (i = o)) as [->|Hne].
  - unfold CircularQueue.peek, CircularQueue.pop; simpl. by rewrite Z.eqb_refl.
  - destruct (pop_of_nats n buf i o) as (v & Hv & ->); [done..|]. simpl.
    unfold CircularQueue.peek; simpl.
    destruct (Z.eqb_spec (Z.of_nat i) (Z.of_nat o)); [lia|].
    unfold array_load. destruct (Z.ltb_spec (Z.of_nat o) 0); [lia|].
    by rewrite Nat2Z.id.
Qed.

End Claims.

(** ** The claims about interleaved executions *)

Section Interleavings.
Context {T : Type} `{!ValueInit T}.
Implicit Types (m : CircularQueueMP.t T) (cfg : Atomic.config T).

(** C8.  Starting from construction with any capacity (all cursors 0), let
    [N = capacity + 1].  Whatever calls of [flush], [available],
    [availableForWrite], [peek], [push], [pop], [pop_n] and of
    [CircularQueueMP]'s [availableForWrite] and [push] (reservation cursor
    [m_inPosL], completion counter [m_inPosC]) any number of threads make,
    and however their atomic accesses interleave, after every step
    [m_inPosT], [m_outPos], [m_inPosL] and [m_inPosC] lie in [0, N) and the
    slot count is what it was. *)
Theorem cursors_stay_in_range granted capacity (fresh : nat → T) q0 nthreads evs cfg :
  0 ≤ capacity ≤ SIZE_MAX →
  CircularQueueMP.new granted capacity fresh = Some q0 →
  Atomic.exec evs (Atomic.start q0 nthreads) = Some cfg →
  let m := Atomic.queue cfg in
  let N := capacity + 1 in
  0 ≤ CircularQueueMP.m_inPosT m < N ∧
  0 ≤ CircularQueueMP.m_outPos m < N ∧
  0 ≤ CircularQueueMP.m_inPosL m < N ∧
  0 ≤ CircularQueueMP.m_inPosC m < N ∧
  CircularQueueMP.m_bufSize m = CircularQueueMP.m_bufSize q0.
Proof.
  intros Hcap Hnew Hexec.
  assert (reachable_from capacity cfg) as Hr
    by (by exists granted, fresh, q0, nthreads, evs).
  apply newMP_wf in Hnew as (Hwf & _ & _).
  eapply exec_inv in Hexec as [_ Hsame]; [|by apply start_inv].
  apply reachable_from_inv in Hr as [[[[Hn _ Hi Ho] HL HC] _] HN].
  simpl in *. unfold CircularQueueMP.m_bufSize, CircularQueueMP.m_inPosT,
    CircularQueueMP.m_outPos in *.
  split_and!; try done; rewrite HN in *; clear Hsame HN Hwf;
    unfold cursor_ok, size_add, to_int, to_size, SIZE_MAX, INT_MAX in *; zmod.
Qed.

(** C9.  A queue constructed with capacity 0 has exactly one slot; in every
    state it can reach, every call of [push] returns false and changes
    nothing, and [available()] and [availableForWrite()] (of both classes)
    return 0. *)
Theorem capacity_zero_empty_and_full cfg :
  reachable_from 0 cfg →
  let q := CircularQueueMP.base (Atomic.queue cfg) in
  CircularQueue.m_bufSize q = 1 ∧
  (∀ val, CircularQueue.push val q = Some (false, q)) ∧
  CircularQueue.available q = 0 ∧
  CircularQueue.availableForWrite q = 0 ∧
  CircularQueueMP.availableForWrite (Atomic.queue cfg) = 0.
Proof.
  intros Hr. apply reachable_from_inv in Hr as [[[Hq HL HC] _] HN].
  change (to_int (size_add 0 1)) with 1 in HN.
  unfold CircularQueueMP.m_bufSize in *. rewrite HN in *.
  simpl. split; [done|].
  apply wf_of_nats in Hq as (n & buf & i & o & Hq & Hn & Hlen & Hi & Ho); [|lia].
  unfold CircularQueueMP.availableForWrite, CircularQueueMP.m_outPos,
    CircularQueueMP.m_bufSize.
  assert (CircularQueueMP.m_inPosL (Atomic.queue cfg) = 0) as ->
    by (unfold cursor_ok in HL; lia).
  rewrite Hq in *. simpl in HN. assert (n = 1%nat) as -> by lia.
  assert (i = 0%nat) as -> by lia. assert (o = 0%nat) as -> by lia.
  split; [|by rewrite available_of_nats, availableForWrite_of_nats by (done || lia)].
  intros val. by apply push_full.
Qed.

(** *** A call on its own does what the member function does *)

Lemma run_app o1 o2 (th : Atomic.thread T) m :
  Atomic.run (o1 ++ o2) th m =
    '(th', m') ← Atomic.run o1 th m; Atomic.run o2 th' m'.
Proof.
  revert th m. induction o1 as [|s o1 IH]; intros th m; simpl; [done|].
  destruct (Atomic.step s th m) as [[th1 m1]|]; simpl; [apply IH|done].
Qed.

Lemma run_flush s1 s2 m :
  Atomic.run [s1; s2] (Atomic.enter Atomic.c_flush) m =
    Some (Atomic.Ret Atomic.r_void,
          CircularQueueMP.set_base (CircularQueue.flush (CircularQueueMP.base m)) m).
Proof. done. Qed.

Lemma run_available s1 s2 m :
  Atomic.run [s1; s2] (Atomic.enter Atomic.c_available) m =
    Some (Atomic.Ret (Atomic.r_size (CircularQueue.available (CircularQueueMP.base m))), m).
Proof. done. Qed.

Lemma run_availableForWrite s1 s2 m :
  Atomic.run [s1; s2] (Atomic.enter Atomic.c_availableForWrite) m =
    Some (Atomic.Ret
            (Atomic.r_size (CircularQueue.availableForWrite (CircularQueueMP.base m))), m).
Proof. done. Qed.

Lemma run_mp_availableForWrite s1 s2 m :
  Atomic.run [s1; s2] (Atomic.enter Atomic.c_mp_availableForWrite) m =
    Some (Atomic.Ret (Atomic.r_size (CircularQueueMP.availableForWrite m)), m).
Proof. done. Qed.

Lemma run_peek s1 s2 s3 m :
  Atomic.run [s1; s2; s3] (Atomic.enter Atomic.c_peek) m =
    v ← CircularQueue.peek (CircularQueueMP.base m);
    Some (Atomic.Ret (Atomic.r_value v), m).
Proof.
  simpl. unfold CircularQueue.peek, CircularQueueMP.m_inPosT, CircularQueueMP.m_outPos,
    CircularQueueMP.m_buffer.
  destruct (_ =? _); simpl; [done|]. by destruct (array_load _ _).
Qed.

Lemma run_push s1 s2 s3 s4 val m :
  Atomic.run [s1; s2; s3; s4] (Atomic.enter (Atomic.c_push val)) m =
    '(b, q) ← CircularQueue.push val (CircularQueueMP.base m);
    Some (Atomic.Ret (Atomic.r_bool b), CircularQueueMP.set_base q m).
Proof.
  destruct m as [q L C]. simpl.
  unfold CircularQueue.push, CircularQueueMP.m_inPosT, CircularQueueMP.m_outPos,
    CircularQueueMP.m_bufSize; simpl.
  destruct (int_rem _ _) as [next|]; simpl; [|done].
  destruct (_ =? _); simpl; [done|].
  unfold CircularQueueMP.m_buffer; simpl. by destruct (array_store _ _ _).
Qed.

Lemma run_pop s1 s2 s3 s4 m :
  Atomic.run [s1; s2; s3; s4] (Atomic.enter Atomic.c_pop) m =
    '(v, q) ← CircularQueue.pop (CircularQueueMP.base m);
    Some (Atomic.Ret (Atomic.r_value v), CircularQueueMP.set_base q m).
Proof.
  destruct m as [q L C]. simpl.
  unfold CircularQueue.pop, CircularQueueMP.m_inPosT, CircularQueueMP.m_outPos,
    CircularQueueMP.m_buffer; simpl.
  destruct (_ =? _); simpl; [done|].
  destruct (array_load _ _); simpl; [|done].
  unfold CircularQueueMP.m_bufSize; simpl. by destruct (int_rem _ _).
Qed.

Lemma run_copy_n s k first (buffer buffer' : list T) pos pos' size outPos rest m :
  copy_n (CircularQueueMP.m_buffer m) first k buffer pos = Some (buffer', pos') →
  Atomic.run (replicate k s) (Atomic.popn_copy size outPos rest first k buffer pos) m =
    Some (Atomic.popn_copied size outPos rest buffer' pos', m).
Proof.
  revert first buffer pos. induction k as [|k IH]; intros first buffer pos; simpl.
  - by intros [= <- <-].
  - destruct (_ !! _); simpl; [|done]. case_decide; [|done]. apply IH.
Qed.

(** [pop_n]: whenever the member function is defined, the call on its own
    returns the same count and buffer and leaves the same queue. *)
Lemma run_pop_n (buffer buffer' : list T) size cnt q' m :
  CircularQueue.pop_n buffer size (CircularQueueMP.base m) = Some (cnt, buffer', q') →
  ∃ k, ∀ s,
    Atomic.run (replicate k s) (Atomic.enter (Atomic.c_pop_n buffer size)) m =
      Some (Atomic.Ret (Atomic.r_pop_n cnt buffer'), CircularQueueMP.set_base q' m).
Proof.
  destruct m as [q L C]. unfold CircularQueue.pop_n. simpl.
  destruct (Z.eqb_spec (Z.min size (CircularQueue.available q)) 0) as [Hz|Hz].
  { intros [= <- <- <-]. exists 2%nat. intros s. simpl.
    unfold Atomic.wrap_avail, CircularQueueMP.m_inPosT, CircularQueueMP.m_outPos,
      CircularQueueMP.m_bufSize; simpl.
    fold (CircularQueue.available q). rewrite Hz. simpl. by destruct q. }
  destruct (Z.ltb_spec (CircularQueue.m_outPos q) 0) as [|Hout]; [done|].
  set (sz := Z.min size (CircularQueue.available q)) in *.
  set (n1 := Z.min sz (to_size (int_sub (CircularQueue.m_bufSize q)
                                  (CircularQueue.m_outPos q)))).
  destruct (copy_n _ _ _ _ _) as [[b1 p1]|] eqn:Hc1; [|done]. simpl.
  set (rest := size_sub sz n1).
  intros Hrest.
  assert (∃ b2 p2 k2,
    (if 0 <? rest then copy_n (CircularQueue.m_buffer q) 0 (Z.to_nat rest) b1 p1
     else Some (b1, p1)) = Some (b2, p2) ∧
    ∀ s, Atomic.run (replicate k2 s)
           (Atomic.popn_copied sz (CircularQueue.m_outPos q) rest b1 p1)
           (CircularQueueMP.mk q L C)
         = Some (Atomic.PopN_xchgOut sz (CircularQueue.m_outPos q) b2,
                 CircularQueueMP.mk q L C)) as (b2 & p2 & k2 & Hc2 & Hrun2).
  { unfold Atomic.popn_copied. destruct (Z.ltb_spec 0 rest).
    - destruct (copy_n _ 0 _ _ _) as [[b2 p2]|] eqn:Hc2; [|done].
      exists b2, p2, (Z.to_nat rest). split; [done|]. intros s.
      pose proof (run_copy_n s (Z.to_nat rest) 0 b1 b2 p1 p2 sz
                    (CircularQueue.m_outPos q) 0 (CircularQueueMP.mk q L C) Hc2) as Hrun.
      unfold Atomic.popn_copy, Atomic.popn_copied in Hrun.
      destruct (Z.to_nat rest) eqn:Hk; [lia|]. exact Hrun.
    - exists b1, p1, 0%nat. split; [done|]. done. }
  rewrite Hc2 in Hrest. simpl in Hrest.
  destruct (size_rem _ _) as [next|] eqn:Hnext; [|done].
  injection Hrest as <- <- <-.
  exists (3 + Z.to_nat n1 + k2 + 1)%nat. intros s.
  rewrite !replicate_add, !run_app. simpl.
  unfold Atomic.wrap_avail, CircularQueueMP.m_inPosT, CircularQueueMP.m_outPos,
    CircularQueueMP.m_bufSize; simpl.
  fold (CircularQueue.available q). fold sz.
  destruct (Z.eqb_spec sz 0); [done|]. simpl.
  unfold CircularQueueMP.m_outPos, CircularQueueMP.m_bufSize; simpl.
  destruct (Z.ltb_spec (CircularQueue.m_outPos q) 0); [lia|]. simpl.
  fold n1. fold rest.
  rewrite (run_copy_n s _ _ _ _ _ _ _ _ _ (CircularQueueMP.mk q L C) Hc1). simpl.
  rewrite Hrun2. simpl.
  unfold CircularQueueMP.m_bufSize; simpl. rewrite Hnext. simpl. by destruct q.
Qed.

(** *** The order of the two stores of [CircularQueue::push] *)

(** C1.  The claim is that [push] stores the value and only then advances
    the write cursor.  The code does the opposite: in every reachable
    non-full state, after the first three atomic accesses of [push(val)]
    ([m_inPosT.load()], [m_outPos.load()], [m_inPosT.store(next)]) the write
    cursor already has its final value and [available()] already counts one
    element more, while the storage is still what it was; the store of [val]
    into its slot is the fourth access. *)
Theorem push_advances_cursor_before_slot_store m val q' :
  reachable (CircularQueueMP.base m) →
  CircularQueue.push val (CircularQueueMP.base m) = Some (true, q') →
  ∃ m3,
    Atomic.run [false; false; false] (Atomic.Push_loadIn val) m
      = Some (Atomic.Push_storeBuf val (CircularQueueMP.m_inPosT m), m3) ∧
    CircularQueueMP.m_inPosT m3 = CircularQueue.m_inPosT q' ∧
    CircularQueueMP.m_buffer m3 = CircularQueueMP.m_buffer m ∧
    CircularQueue.available (CircularQueueMP.base m3)
      = CircularQueue.available (CircularQueueMP.base m) + 1 ∧
    Atomic.step false (Atomic.Push_storeBuf val (CircularQueueMP.m_inPosT m)) m3
      = Some (Atomic.Ret (Atomic.r_bool true), CircularQueueMP.set_base q' m).
Proof.
  intros Hq Hpush. apply reachable_wf in Hq. destruct m as [q L C]. simpl in *.
  destruct (wf_cases q Hq) as [->|(n & buf & i & o & -> & Hn & Hlen & Hi & Ho)];
    [done|].
  destruct (decide (free n i o = 0%nat)) as [Hfull|Hfree].
  { by rewrite push_full in Hpush. }
  rewrite push_of_nats in Hpush by done. injection Hpush as <-.
  assert (slot n i 1 ≠ o) by (unfold free, slot in *; repeat case_decide; lia).
  assert (slot n i 1 < n)%nat by (unfold slot; case_decide; lia).
  eexists. simpl.
  unfold CircularQueueMP.m_bufSize, CircularQueueMP.m_inPosT; simpl.
  rewrite next_of_nats by done. simpl.
  unfold CircularQueueMP.m_outPos; simpl.
  destruct (Z.eqb_spec (Z.of_nat (slot n i 1)) (Z.of_nat o)); [lia|].
  split; [done|]. split; [done|]. split; [done|]. split.
  - simpl. change (CircularQueue.set_inPosT (Z.of_nat (slot n i 1)) (of_nats n buf i o))
      with (of_nats n buf (slot n i 1) o).
    rewrite !available_of_nats by done.
    unfold used, slot, free in *. repeat case_decide; lia.
  - unfold CircularQueueMP.m_buffer; simpl. unfold array_store.
    destruct (Z.leb_spec 0 (Z.of_nat i)); [|lia].
    destruct (Z.ltb_spec (Z.of_nat i) (Z.of_nat (length buf))); [|lia].
    simpl. by rewrite Nat2Z.id.
Qed.

(** *** One [CircularQueueMP::push] on its own *)

Lemma step_push_alone_stored spurious m0 next m1 th m th' m' :
  CircularQueueMP.m_inPosC m1 = CircularQueueMP.m_inPosC m0 →
  CircularQueueMP.m_inPosL m1 = next →
  CircularQueueMP.m_bufSize m1 = CircularQueueMP.m_bufSize m0 →
  int_rem (int_add (CircularQueueMP.m_inPosC m0) 1) (CircularQueueMP.m_bufSize m0)
    = Some next →
  push_alone_stored m0 next m1 th m →
  Atomic.step spurious th m = Some (th', m') →
  push_alone_stored m0 next m1 th' m'.
Proof.
  intros HC HL HN Hnext Hth Hstep.
  destruct Hth; simpl in Hstep.
  - injection Hstep as <- <-. rewrite HC. constructor.
  - rewrite HN, Hnext in Hstep. simpl in Hstep.
    unfold Atomic.compare_exchange in Hstep. rewrite HC, Z.eqb_refl in Hstep.
    destruct spurious; simpl in Hstep; injection Hstep as <- <-; constructor.
  - unfold Atomic.compare_exchange in Hstep. simpl in Hstep.
    rewrite HL, Z.eqb_refl in Hstep. simpl in Hstep. injection Hstep as <- <-.
    replace (CircularQueueMP.set_inPosL next (CircularQueueMP.set_inPosC next m1))
      with (CircularQueueMP.set_inPosC next m1); [constructor|].
    destruct m1; simpl in *. by subst.
  - injection Hstep as <- <-. constructor.
  - injection Hstep as <- <-. constructor.
Qed.

Lemma push_is_full val m next :
  CircularQueueMP.m_inPosL m = CircularQueueMP.m_inPosT m →
  int_rem (int_add (CircularQueueMP.m_inPosL m) 1) (CircularQueueMP.m_bufSize m)
    = Some next →
  next = CircularQueueMP.m_outPos m →
  CircularQueue.push val (CircularQueueMP.base m) = Some (false, CircularQueueMP.base m).
Proof.
  unfold CircularQueueMP.m_inPosT, CircularQueueMP.m_bufSize, CircularQueueMP.m_outPos.
  intros -> Hnext ->. unfold CircularQueue.push. rewrite Hnext. simpl.
  by rewrite Z.eqb_refl.
Qed.

Lemma step_push_alone spurious val m0 th m th' m' :
  quiescent m0 →
  push_alone val m0 th m →
  Atomic.step spurious th m = Some (th', m') →
  push_alone val m0 th' m'.
Proof.
  intros [HL HC] Hth Hstep.
  destruct Hth as [| |Hfull|next Hnext Hne|next Hnext Hne|next buf th m Hnext Hne Hbuf Hth];
    simpl in Hstep.
  - injection Hstep as <- <-. constructor.
  - destruct (int_rem _ _) as [next|] eqn:Hnext; [|done]. simpl in Hstep.
    destruct (Z.eqb_spec next (CircularQueueMP.m_outPos m0));
      injection Hstep as <- <-.
    + constructor. by eapply push_is_full.
    + by constructor.
  - injection Hstep as <- <-. by constructor.
  - unfold Atomic.compare_exchange in Hstep. rewrite Z.eqb_refl in Hstep.
    destruct spurious; simpl in Hstep; injection Hstep as <- <-; by constructor.
  - destruct (array_store _ _ _) as [buf|] eqn:Hbuf; [|done]. simpl in Hstep.
    injection Hstep as <- <-. eapply pa_stored; [done..|constructor].
  - eapply pa_stored; [done..|].
    eapply step_push_alone_stored; [| | | |exact Hth|exact Hstep]; try done.
    by rewrite HC, <-HL.
Qed.

Lemma run_push_alone oracle val m0 th m th' m' :
  quiescent m0 →
  push_alone val m0 th m →
  Atomic.run oracle th m = Some (th', m') →
  push_alone val m0 th' m'.
Proof.
  intros Hq. revert th m. induction oracle as [|spurious oracle IH];
    intros th m Hth Hrun; simpl in Hrun.
  - by injection Hrun as <- <-.
  - destruct (Atomic.step spurious th m) as [[th1 m1]|] eqn:Hstep; [|done].
    simpl in Hrun. eapply IH; [|exact Hrun]. by eapply step_push_alone.
Qed.

Lemma push_alone_returned val m0 r m' :
  quiescent m0 →
  push_alone val m0 (Atomic.Ret r) m' →
  ∃ b, r = Atomic.r_bool b ∧
    CircularQueue.push val (CircularQueueMP.base m0)
      = Some (b, CircularQueueMP.base m') ∧
    quiescent m'.
Proof.
  intros [HL HC] Hth. inversion Hth as [| |Hfull| | |next buf th m Hnext Hne Hbuf Hst];
    subst.
  - exists false. by repeat split.
  - inversion Hst; subst. exists true. split; [done|].
    split; [|by split].
    unfold CircularQueue.push.
    unfold CircularQueueMP.m_inPosT, CircularQueueMP.m_bufSize,
      CircularQueueMP.m_outPos, CircularQueueMP.m_buffer in *.
    rewrite <-HL, Hnext. simpl.
    destruct (Z.eqb_spec next (CircularQueue.m_outPos (CircularQueueMP.base m0)));
      [done|].
    by rewrite Hbuf.
Qed.

(** C10.  When [CircularQueueMP::push(val)] (the compare-and-swap body) runs
    with no other thread in between, from any state in which [m_inPosL],
    [m_inPosC] and [m_inPosT] are equal, then, however many of its weak
    exchanges fail spuriously, if it returns it returns what
    [CircularQueue::push(val)] returns on the same state and leaves the
    storage, [m_inPosT] and [m_outPos] as that call leaves them, with
    [m_inPosL], [m_inPosC] and [m_inPosT] equal again; and whenever
    [CircularQueue::push(val)] is defined, it does return, within eight
    steps when no exchange fails spuriously. *)
Theorem mp_push_alone_as_push m val :
  quiescent m →
  (∀ oracle r m',
     Atomic.run oracle (Atomic.MPush_loadL val) m = Some (Atomic.Ret r, m') →
     ∃ b, r = Atomic.r_bool b ∧
       CircularQueue.push val (CircularQueueMP.base m)
         = Some (b, CircularQueueMP.base m') ∧
       quiescent m') ∧
  (∀ b q', CircularQueue.push val (CircularQueueMP.base m) = Some (b, q') →
     ∃ m',
       Atomic.run (replicate 8 false) (Atomic.MPush_loadL val) m
         = Some (Atomic.Ret (Atomic.r_bool b), m') ∧
       CircularQueueMP.base m' = q').
Proof.
  intros Hq. split.
  - intros oracle r m' Hrun. apply push_alone_returned; [done|].
    eapply run_push_alone; [done|constructor|exact Hrun].
  - destruct Hq as [HL HC]. intros b q'. unfold CircularQueue.push.
    destruct m as [[N buf I O] L C].
    unfold CircularQueueMP.m_inPosT in *. simpl in *. subst L C.
    destruct (int_rem (int_add I 1) N) as [next|] eqn:Hnext; [|done]. simpl.
    unfold CircularQueueMP.m_bufSize, CircularQueueMP.m_outPos; simpl.
    rewrite Hnext. simpl. destruct (Z.eqb_spec next O).
    { intros [= <- <-]. simpl. eauto. }
    simpl. destruct (array_store buf I val) as [buf'|] eqn:Hbuf; [|done].
    simpl. intros [= <- <-].
    unfold Atomic.compare_exchange. rewrite Z.eqb_refl. simpl.
    unfold CircularQueueMP.m_buffer at 1; simpl. rewrite Hbuf. simpl.
    unfold CircularQueueMP.m_bufSize at 1; simpl. rewrite Hnext. simpl.
    unfold Atomic.compare_exchange. rewrite Z.eqb_refl. simpl.
    unfold Atomic.compare_exchange. rewrite Z.eqb_refl. simpl. eauto.
Qed.

End Interleavings.

(** ** Concrete instances *)

Lemma drained_example_reachable : reachable drained_example.
Proof.
  exists 2. eexists. split.
  - exists true, (λ _, 0). eexists _, 2%nat, drained_schedule. split; [vm_compute; reflexivity|vm_compute; reflexivity].
  - vm_compute; reflexivity.
Defined.

Lemma wrapped_example_reachable : reachable wrapped_example.
Proof.
  exists 2. eexists. split.
  - exists true, (λ _, 0). eexists _, 2%nat, wrapped_schedule. split; [vm_compute; reflexivity|vm_compute; reflexivity].
  - vm_compute; reflexivity.
Defined.

(** The wrapped queue holds 12 and 13, in slots 2 and 0. *)
Example wrapped_example_contents : contents wrapped_example = [12; 13].
Proof. vm_compute; reflexivity. Qed.

Example wrapped_example_pop_n :
  CircularQueue.pop_n [0; 0; 0] 5 wrapped_example
    = Some (2, [12; 13; 0], CircularQueue.mk 3 [13; 11; 12] 1 1).
Proof. vm_compute; reflexivity. Qed.

(** Capacity [INT_MAX]: the slot count does not fit an [int], no queue is
    constructed, whatever the heap could provide. *)
Example capacity_int_max_not_constructed :
  CircularQueue.new (T:=Z) true 2147483647 (λ _, 0) = None.
Proof. vm_compute; reflexivity. Qed.

(** Counterexample to C2 as stated.  With capacity [SIZE_MAX = 4294967295]
    the slot count [capacity + 1] wraps to 0: the queue is constructed with
    no slot (the allocation of no cell being granted), and its first [push]
    computes a remainder by zero instead of returning true. *)
Lemma capacity_size_max_not_accepted :
  1 ≤ 4294967295 ∧
  ∃ q0, CircularQueue.new (T:=Z) true 4294967295 (λ _, 0) = Some q0 ∧
    CircularQueue.m_bufSize q0 = 0 ∧
    CircularQueue.push 0 q0 = None ∧
    ¬ accepts_exactly 4294967295 q0.
Proof.
  split; [lia|]. eexists. split; [vm_compute; reflexivity|].
  split; [reflexivity|]. split; [vm_compute; reflexivity|].
  intros Hacc. destruct (Hacc [0]) as (q & Hpush & _); [simpl; lia|].
  vm_compute in Hpush. discriminate Hpush.
Qed.

(** Counterexample to C4 as stated.  The queue constructed with capacity
    [SIZE_MAX] is empty, and the first push of a sequence of one value (one
    being at most the capacity) is undefined: nothing is pushed, nothing can
    be popped back. *)
Lemma capacity_size_max_no_round_trip :
  ∃ q0, CircularQueue.new (T:=Z) true 4294967295 (λ _, 0) = Some q0 ∧
    empty q0 ∧ Z.of_nat (length [7]) ≤ 4294967295 ∧
    pushes [7] q0 = None ∧
    ¬ ∃ q1 q2, pushes [7] q0 = Some (replicate (length [7]) true, q1) ∧
        pops (length [7]) q1 = Some ([7], q2).
Proof.
  eexists. split; [vm_compute; reflexivity|]. split; [reflexivity|].
  split; [simpl; lia|]. split; [vm_compute; reflexivity|].
  intros (q1 & q2 & Hpush & _). vm_compute in Hpush. discriminate Hpush.
Qed.

Lemma capacity_pushes_accepted_witness :
  1 ≤ 2 ∧ 2 + 1 ≤ INT_MAX ∧
  CircularQueue.new (T:=Z) true 2 (λ _, 0) = Some (CircularQueue.mk 3 [0; 0; 0] 0 0) ∧
  accepts_exactly 2 (CircularQueue.mk 3 [0; 0; 0] 0 0).
Proof.
  split; [lia|]. split; [unfold INT_MAX; lia|]. split; [vm_compute; reflexivity|].
  apply (capacity_pushes_accepted (T:=Z) true 2 (λ _, 0));
    [lia|unfold INT_MAX; lia|vm_compute; reflexivity].
Defined.

Lemma pop_n_same_as_pops_witness :
  reachable wrapped_example ∧ 0 ≤ 5 ∧
  (Z.to_nat (Z.min 5 (CircularQueue.available wrapped_example)) ≤ length [0; 0; 0])%nat ∧
  ∃ xs q',
    pops (Z.to_nat (Z.min 5 (CircularQueue.available wrapped_example))) wrapped_example
      = Some (xs, q') ∧
    CircularQueue.pop_n [0; 0; 0] 5 wrapped_example
      = Some (Z.min 5 (CircularQueue.available wrapped_example),
              xs ++ drop (Z.to_nat (Z.min 5 (CircularQueue.available wrapped_example)))
                      [0; 0; 0], q') ∧
    length xs = Z.to_nat (Z.min 5 (CircularQueue.available wrapped_example)) ∧
    CircularQueue.m_outPos q' =
      (CircularQueue.m_outPos wrapped_example
       + Z.min 5 (CircularQueue.available wrapped_example))
      mod CircularQueue.m_bufSize wrapped_example.
Proof.
  split; [apply wrapped_example_reachable|]. split; [lia|].
  split; [vm_compute; lia|].
  apply (pop_n_same_as_pops wrapped_example [0; 0; 0] 5);
    [apply wrapped_example_reachable|lia|vm_compute; lia].
Defined.

Lemma fifo_round_trip_witness :
  reachable drained_example ∧ CircularQueue.m_bufSize drained_example = 2 + 1 ∧
  empty drained_example ∧ Z.of_nat (length [7; 8]) ≤ 2 ∧
  (0 ≤ 2 ∧ 2 + 1 ≤ INT_MAX) ∧
  ∃ q1 q2,
    pushes [7; 8] drained_example = Some (replicate (length [7; 8]) true, q1) ∧
    pops (length [7; 8]) q1 = Some ([7; 8], q2) ∧
    empty q2.
Proof.
  split; [apply drained_example_reachable|]. split; [vm_compute; reflexivity|].
  split; [vm_compute; reflexivity|]. split; [simpl; lia|].
  apply (fifo_round_trip 2 drained_example [7; 8]);
    [apply drained_example_reachable|vm_compute; reflexivity
    |vm_compute; reflexivity|simpl; lia].
Defined.

Lemma pop_empty_or_oldest_witness :
  reachable wrapped_example ∧
  (empty wrapped_example →
   CircularQueue.pop wrapped_example = Some (CircularQueue.defaultValue, wrapped_example)) ∧
  (¬ empty wrapped_example →
   ∃ v, CircularQueue.m_buffer wrapped_example
          !! Z.to_nat (CircularQueue.m_outPos wrapped_example) = Some v ∧
     CircularQueue.pop wrapped_example =
       Some (v, CircularQueue.set_outPos
                  ((CircularQueue.m_outPos wrapped_example + 1)
                   mod CircularQueue.m_bufSize wrapped_example) wrapped_example)).
Proof.
  split; [apply wrapped_example_reachable|].
  apply (pop_empty_or_oldest wrapped_example), wrapped_example_reachable.
Defined.

Lemma push_full_refused_witness :
  reachable wrapped_example ∧ full wrapped_example ∧
  CircularQueue.push 14 wrapped_example = Some (false, wrapped_example).
Proof.
  split; [apply wrapped_example_reachable|].
  split; [vm_compute; reflexivity|].
  apply (push_full_refused wrapped_example 14);
    [apply wrapped_example_reachable|vm_compute; reflexivity].
Defined.

Lemma cursors_stay_in_range_witness :
  0 ≤ 2 ≤ SIZE_MAX ∧
  CircularQueueMP.new true 2 (λ _, 0) = Some mixed_start ∧
  Atomic.exec mixed_schedule (Atomic.start mixed_start 3) = Some mixed_final ∧
  0 ≤ CircularQueueMP.m_inPosT (Atomic.queue mixed_final) < 2 + 1 ∧
  0 ≤ CircularQueueMP.m_outPos (Atomic.queue mixed_final) < 2 + 1 ∧
  0 ≤ CircularQueueMP.m_inPosL (Atomic.queue mixed_final) < 2 + 1 ∧
  0 ≤ CircularQueueMP.m_inPosC (Atomic.queue mixed_final) < 2 + 1 ∧
  CircularQueueMP.m_bufSize (Atomic.queue mixed_final)
    = CircularQueueMP.m_bufSize mixed_start.
Proof.
  split; [unfold SIZE_MAX; lia|]. split; [vm_compute; reflexivity|].
  split; [vm_compute; reflexivity|].
  apply (cursors_stay_in_range true 2 (λ _, 0) mixed_start 3 mixed_schedule mixed_final);
    [unfold SIZE_MAX; lia|vm_compute; reflexivity..].
Defined.

Lemma zero_final_reachable : reachable_from 0 zero_final.
Proof.
  exists true, (λ _, 0). eexists _, 2%nat, zero_schedule.
  split; [vm_compute; reflexivity|vm_compute; reflexivity].
Defined.

Lemma capacity_zero_empty_and_full_witness :
  reachable_from 0 zero_final ∧
  CircularQueue.m_bufSize (CircularQueueMP.base (Atomic.queue zero_final)) = 1 ∧
  (∀ val, CircularQueue.push val (CircularQueueMP.base (Atomic.queue zero_final))
          = Some (false, CircularQueueMP.base (Atomic.queue zero_final))) ∧
  CircularQueue.available (CircularQueueMP.base (Atomic.queue zero_final)) = 0 ∧
  CircularQueue.availableForWrite (CircularQueueMP.base (Atomic.queue zero_final)) = 0 ∧
  CircularQueueMP.availableForWrite (Atomic.queue zero_final) = 0.
Proof.
  split; [apply zero_final_reachable|].
  apply (capacity_zero_empty_and_full zero_final), zero_final_reachable.
Defined.

Lemma push_advances_cursor_before_slot_store_witness :
  reachable drained_example ∧
  CircularQueue.push 7 drained_example
    = Some (true, CircularQueue.mk 3 [10; 11; 7] 0 2) ∧
  ∃ m3,
    Atomic.run [false; false; false] (Atomic.Push_loadIn 7)
        (CircularQueueMP.mk drained_example 0 0)
      = Some (Atomic.Push_storeBuf 7 2, m3) ∧
    CircularQueueMP.m_inPosT m3 = 0 ∧
    CircularQueueMP.m_buffer m3 = [10; 11; 0] ∧
    CircularQueue.available (CircularQueueMP.base m3)
      = CircularQueue.available drained_example + 1 ∧
    Atomic.step false (Atomic.Push_storeBuf 7 2) m3
      = Some (Atomic.Ret (Atomic.r_bool true),
              CircularQueueMP.mk (CircularQueue.mk 3 [10; 11; 7] 0 2) 0 0).
Proof.
  split; [apply drained_example_reachable|]. split; [vm_compute; reflexivity|].
  apply (push_advances_cursor_before_slot_store
           (CircularQueueMP.mk drained_example 0 0) 7
           (CircularQueue.mk 3 [10; 11; 7] 0 2));
    [apply drained_example_reachable|vm_compute; reflexivity].
Defined.

(** The order of the two stores observed by a consumer.  Capacity 1, slots
    initially 170.  [pop()] runs between the cursor store and the slot store
    of [push(7)]: it returns the stale 170, never 7, and leaves the queue
    empty with 7 in a slot nobody will read. *)
Example push_pop_race_reads_stale_slot :
  CircularQueueMP.new true 1 (λ _, 170) = Some race_start ∧
  Atomic.exec race_schedule (Atomic.start race_start 2) = Some race_final ∧
  CircularQueue.available (CircularQueueMP.base (Atomic.queue race_final)) = 0.
Proof. repeat split; vm_compute; reflexivity. Qed.

Lemma mp_push_alone_as_push_witness :
  quiescent quiescent_example ∧
  (∀ oracle r m',
     Atomic.run oracle (Atomic.MPush_loadL 12) quiescent_example
       = Some (Atomic.Ret r, m') →
     ∃ b, r = Atomic.r_bool b ∧
       CircularQueue.push 12 (CircularQueueMP.base quiescent_example)
         = Some (b, CircularQueueMP.base m') ∧
       quiescent m') ∧
  (∀ b q',
     CircularQueue.push 12 (CircularQueueMP.base quiescent_example) = Some (b, q') →
     ∃ m',
       Atomic.run (replicate 8 false) (Atomic.MPush_loadL 12) quiescent_example
         = Some (Atomic.Ret (Atomic.r_bool b), m') ∧
       CircularQueueMP.base m' = q').
Proof.
  split; [split; vm_compute; reflexivity|].
  apply (mp_push_alone_as_push quiescent_example 12).
  split; vm_compute; reflexivity.
Defined.

(** With two spurious failures of the weak exchanges the call still returns
    true, and leaves the three producer cursors equal. *)
Example mp_push_alone_spurious :
  Atomic.run [false; false; true; false; false; false; false; true; false; false; false]
      (Atomic.MPush_loadL 12) quiescent_example
    = Some (Atomic.Ret (Atomic.r_bool true),
            CircularQueueMP.mk (CircularQueue.mk 3 [10; 11; 12] 0 1) 0 0).
Proof. vm_compute; reflexivity. Qed.

Lemma available_counts_witness :
  reachable wrapped_example ∧ 0 < CircularQueue.m_bufSize wrapped_example ∧
  CircularQueue.available wrapped_example =
    (CircularQueue.m_inPosT wrapped_example - CircularQueue.m_outPos wrapped_example)
      mod CircularQueue.m_bufSize wrapped_example ∧
  CircularQueue.availableForWrite wrapped_example =
    (CircularQueue.m_outPos wrapped_example - CircularQueue.m_inPosT wrapped_example - 1)
      mod CircularQueue.m_bufSize wrapped_example ∧
  CircularQueue.available wrapped_example
    + CircularQueue.availableForWrite wrapped_example
    = CircularQueue.m_bufSize wrapped_example - 1.
Proof.
  split; [apply wrapped_example_reachable|]. split; [simpl; lia|].
  apply (available_counts wrapped_example);
    [apply wrapped_example_reachable|simpl; lia].
Defined.

Lemma fresh_queue_is_empty_witness :
  0 ≤ 4 ∧ 4 + 1 ≤ INT_MAX ∧
  CircularQueue.new (T:=Z) true 4 (λ _, 170) = Some fresh_example ∧
  CircularQueue.available fresh_example = 0 ∧
  CircularQueue.availableForWrite fresh_example = 4 ∧
  CircularQueue.pop fresh_example = Some (CircularQueue.defaultValue, fresh_example) ∧
  CircularQueue.peek fresh_example = Some CircularQueue.defaultValue.
Proof.
  split; [lia|]. split; [unfold INT_MAX; lia|]. split; [vm_compute; reflexivity|].
  apply (fresh_queue_is_empty (T:=Z) true 4 (λ _, 170));
    [lia|unfold INT_MAX; lia|vm_compute; reflexivity].
Defined.

Lemma peek_as_pop_witness :
  reachable wrapped_example ∧
  CircularQueue.peek wrapped_example = fst <$> CircularQueue.pop wrapped_example.
Proof.
  split; [apply wrapped_example_reachable|].
  apply (peek_as_pop wrapped_example), wrapped_example_reachable.
Defined.

(** Two calls of [CircularQueueMP::push] whose last accesses interleave store
    [m_inPosT] out of order.  After both values are in their slots the write
    cursor is 2 and the consumer pops 1 and 2; then the delayed
    [m_inPosT.store(1)] of the first call sets the cursor back to 1.  Both
    calls have returned true, [available()] is 2 again, and two more calls of
    [pop()] return the content of a slot that was never written (170) and
    the value 1 a second time. *)
Theorem mp_push_publication_regresses :
  CircularQueueMP.new true 2 (λ _, 170) = Some regress_start ∧
  Atomic.exec (take 17 regress_schedule) (Atomic.start regress_start 3)
    = Some regress_published ∧
  CircularQueueMP.m_inPosT (Atomic.queue regress_published) = 2 ∧
  Atomic.exec regress_schedule (Atomic.start regress_start 3) = Some regress_final ∧
  CircularQueueMP.m_inPosT (Atomic.queue regress_final) = 1 ∧
  CircularQueue.available (CircularQueueMP.base (Atomic.queue regress_final)) = 2 ∧
  pops 2 (CircularQueueMP.base (Atomic.queue regress_final))
    = Some ([170; 1], CircularQueue.mk 3 [1; 2; 170] 1 1).
Proof. repeat split; vm_compute; reflexivity. Qed.

(** ** Further properties of the member functions *)

Section Queue.
Context {T : Type} `{!ValueInit T}.
Implicit Types (q : CircularQueue.t T) (buf : list T).

Lemma contents_degenerate : contents (CircularQueue.mk (T:=T) 0 [] 0 0) = [].
Proof. done. Qed.

Lemma contents_nil_iff n buf i o :
  Z.of_nat n ≤ INT_MAX → length buf = n → (i < n)%nat → (o < n)%nat →
  contents (of_nats n buf i o) = [] ↔ i = o.
Proof.
  intros Hn Hlen Hi Ho.
  pose proof (length_contents n buf i o Hn Hlen Hi Ho) as Hl.
  split.
  - intros Hc. rewrite Hc in Hl. simpl in Hl.
    unfold used in Hl. case_decide; lia.
  - intros ->. apply length_zero_iff_nil. rewrite Hl.
    unfold used. case_decide; lia.
Qed.

(** [push] on any reachable queue with at least one slot: it is defined, it
    is accepted exactly when [availableForWrite()] is positive, an accepted
    value becomes the newest unread element and the read cursor stays, a
    refused one changes nothing. *)
Theorem push_appends q val :
  reachable q → 0 < CircularQueue.m_bufSize q →
  ∃ b q', CircularQueue.push val q = Some (b, q') ∧
    (b = true ↔ 0 < CircularQueue.availableForWrite q) ∧
    (if b
     then contents q' = contents q ++ [val] ∧
          CircularQueue.availableForWrite q' = CircularQueue.availableForWrite q - 1 ∧
          CircularQueue.m_outPos q' = CircularQueue.m_outPos q
     else q' = q).
Proof.
  intros Hq Hpos. apply reachable_wf in Hq.
  apply wf_of_nats in Hq as (n & buf & i & o & -> & Hn & Hlen & Hi & Ho); [|done].
  rewrite availableForWrite_of_nats by done.
  destruct (decide (free n i o = 0%nat)) as [Hfull|Hfree].
  - exists false, (of_nats n buf i o). rewrite push_full by done.
    split; [done|]. split; [|done]. split; [done|lia].
  - exists true, (of_nats n (<[i := val]> buf) (slot n i 1) o).
    rewrite push_of_nats by done. split; [done|]. split; [split; [lia|done]|].
    assert (slot n i 1 < n)%nat by (unfold slot; case_decide; lia).
    split; [by apply contents_push|]. split; [|done].
    rewrite availableForWrite_of_nats by done.
    unfold free, slot in *. repeat case_decide; lia.
Qed.

(** [pop] on any reachable queue: it is defined; with nothing unread it
    returns the default value and changes nothing, otherwise it returns the
    oldest unread element, the others stay unread in their order, and write
    cursor and storage are untouched. *)
Theorem pop_removes_oldest q :
  reachable q →
  ∃ v q', CircularQueue.pop q = Some (v, q') ∧
    match contents q with
    | [] => v = CircularQueue.defaultValue ∧ q' = q
    | x :: rest =>
        v = x ∧ contents q' = rest ∧
        CircularQueue.m_inPosT q' = CircularQueue.m_inPosT q ∧
        CircularQueue.m_buffer q' = CircularQueue.m_buffer q
    end.
Proof.
  intros Hq. apply reachable_wf in Hq.
  destruct (wf_cases q Hq) as [->|(n & buf & i & o & -> & Hn & Hlen & Hi & Ho)].
  { by eexists _, _. }
  destruct (decide (i = o)) as [->|Hne].
  - exists CircularQueue.defaultValue, (of_nats n buf o o).
    split; [unfold CircularQueue.pop; simpl; by rewrite Z.eqb_refl|].
    by rewrite (proj2 (contents_nil_iff n buf o o Hn Hlen Ho Ho)).
  - destruct (pop_of_nats n buf i o) as (v & Hv & Hpop); [done..|].
    exists v, (of_nats n buf i (slot n o 1)). split; [done|].
    by rewrite (contents_pop n buf i o v).
Qed.

(** [flush] discards exactly what popping would have delivered: as many
    calls of [pop()] as [available()] counts return the unread elements in
    order and end in the state [flush()] produces at once. *)
Theorem pops_all_is_flush q :
  reachable q →
  pops (Z.to_nat (CircularQueue.available q)) q = Some (contents q, CircularQueue.flush q).
Proof.
  intros Hq. apply reachable_wf in Hq.
  destruct (wf_cases q Hq) as [->|(n & buf & i & o & -> & Hn & Hlen & Hi & Ho)];
    [done|].
  rewrite available_of_nats, Nat2Z.id by done.
  rewrite pops_of_nats by done.
  rewrite slot_used by done.
  rewrite take_ge; [done|]. by rewrite length_contents.
Qed.

(** [pop_n] asked for at least [available()] elements (the caller's array
    having room for them) returns that count, hands over all unread elements
    in order and leaves the queue as [flush()] does. *)
Theorem pop_n_drains q (buffer : list T) size :
  reachable q → CircularQueue.available q ≤ size →
  (Z.to_nat (CircularQueue.available q) ≤ length buffer)%nat →
  CircularQueue.pop_n buffer size q =
    Some (CircularQueue.available q,
          contents q ++ drop (Z.to_nat (CircularQueue.available q)) buffer,
          CircularQueue.flush q).
Proof.
  intros Hq Hsize Hroom. apply reachable_wf in Hq.
  destruct (wf_cases q Hq) as [->|(n & buf & i & o & -> & Hn & Hlen & Hi & Ho)].
  { unfold CircularQueue.pop_n, CircularQueue.available in *; simpl in *.
    change (to_size (int_sub 0 0)) with 0 in *.
    by replace (Z.min size 0) with 0 by lia. }
  rewrite available_of_nats, ?Nat2Z.id in * by done.
  rewrite pop_n_of_nats by (done || lia).
  replace (Z.min size (Z.of_nat (used n i o))) with (Z.of_nat (used n i o)) by lia.
  rewrite Nat2Z.id, slot_used by done.
  rewrite take_ge; [done|]. by rewrite length_contents.
Qed.

(** What the constructor can yield, over the whole range of [size_t].  For
    [INT_MAX ≤ capacity < SIZE_MAX] the slot count is negative as an [int]
    and [new] refuses it: a queue is constructed only if [capacity + 1] fits
    an [int] or [capacity = SIZE_MAX].  A constructed queue has both cursors
    at 0 and a storage of [m_bufSize] cells, [m_bufSize] being
    [capacity + 1], except for [capacity = SIZE_MAX], where it is 0 and the
    queue has no slot. *)
Theorem constructed_queue_shape granted capacity (fresh : nat → T) q :
  0 ≤ capacity ≤ SIZE_MAX →
  CircularQueue.new granted capacity fresh = Some q →
  (capacity + 1 ≤ INT_MAX ∨ capacity = SIZE_MAX) ∧
  CircularQueue.m_inPosT q = 0 ∧ CircularQueue.m_outPos q = 0 ∧
  Z.of_nat (length (CircularQueue.m_buffer q)) = CircularQueue.m_bufSize q ∧
  CircularQueue.m_bufSize q = (if decide (capacity = SIZE_MAX) then 0 else capacity + 1).
Proof.
  intros Hcap Hnew.
  assert (to_int (size_add capacity 1) =
          if decide (capacity = SIZE_MAX) then 0
          else if decide (capacity + 1 ≤ INT_MAX) then capacity + 1
          else capacity + 1 - 4294967296) as Hsize.
  { unfold to_int, size_add, to_size, SIZE_MAX, INT_MAX in *.
    repeat case_decide; zmod. }
  apply new_wf in Hnew as ([Hn Hlen _ _] & Hi & Ho & HN).
  rewrite Hsize in HN. rewrite HN in *.
  split_and!; try done; unfold SIZE_MAX, INT_MAX in *; repeat case_decide; lia.
Qed.

End Queue.

(** ** No undefined access, whatever the interleaving *)

Section Safety.
Context {T : Type} `{!ValueInit T}.
Implicit Types (m : CircularQueueMP.t T) (cfg : Atomic.config T).

Lemma int_rem_defined a n : 0 < n → is_Some (int_rem a n).
Proof.
  intros Hn. unfold int_rem.
  destruct (Z.eqb_spec n 0); [lia|].
  destruct (Z.eqb_spec n (-1)); [lia|]. rewrite andb_false_r. by eexists.
Qed.

Lemma wrap_avail_range n a b :
  0 < n ≤ INT_MAX → cursor_ok n a → cursor_ok n b →
  0 ≤ Atomic.wrap_avail (int_sub a b) n < n.
Proof.
  intros Hn Ha Hb. unfold Atomic.wrap_avail, int_sub, int_add, cursor_ok, INT_MAX in *.
  rewrite (to_int_id (a - b)) by (unfold INT_MIN, INT_MAX; lia).
  destruct (Z.ltb_spec (a - b) 0).
  - rewrite to_int_id by (unfold INT_MIN, INT_MAX; lia).
    rewrite to_size_id by (unfold SIZE_MAX; lia). lia.
  - rewrite to_size_id by (unfold SIZE_MAX; lia). lia.
Qed.

Lemma span_to_end n o :
  0 < n ≤ INT_MAX → cursor_ok n o → to_size (int_sub n o) = n - o.
Proof.
  intros Hn Ho. unfold int_sub, cursor_ok, INT_MAX in *.
  rewrite to_int_id by (unfold INT_MIN, INT_MAX; lia).
  apply to_size_id. unfold SIZE_MAX. lia.
Qed.

Lemma popn_copied_safe n size outPos rest (buffer : list T) pos :
  0 ≤ rest ≤ n → Z.of_nat pos + rest ≤ Z.of_nat (length buffer) →
  thread_safe n (Atomic.popn_copied size outPos rest buffer pos).
Proof.
  intros Hrest Hroom. unfold Atomic.popn_copied.
  destruct (Z.ltb_spec 0 rest); simpl; [|done]. lia.
Qed.

Lemma popn_copy_safe n size outPos rest first k (buffer : list T) pos :
  Z.of_nat first + Z.of_nat k ≤ n → 0 ≤ rest ≤ n →
  Z.of_nat pos + Z.of_nat k + rest ≤ Z.of_nat (length buffer) →
  thread_safe n (Atomic.popn_copy size outPos rest first k buffer pos).
Proof.
  intros. destruct k; simpl; [apply popn_copied_safe; lia|done].
Qed.

Lemma enter_safe n (c : Atomic.call T) : call_ok c → thread_safe n (Atomic.enter c).
Proof. by destruct c. Qed.

Lemma step_safe spurious th m th' m' :
  wfMP m → 0 < CircularQueueMP.m_bufSize m →
  thread_ok (CircularQueueMP.m_bufSize m) th →
  thread_safe (CircularQueueMP.m_bufSize m) th →
  Atomic.step spurious th m = Some (th', m') →
  thread_safe (CircularQueueMP.m_bufSize m) th'.
Proof.
  intros [[Hn Hlen Hi Ho] HL HC] Hpos Hok Hsafe Hstep.
  unfold CircularQueueMP.m_bufSize in *.
  destruct th; simpl in Hstep, Hok, Hsafe;
    repeat match type of Hstep with
    | context [int_rem ?a ?b] => destruct (int_rem a b); simpl in Hstep; [|done]
    | context [size_rem ?a ?b] => destruct (size_rem a b); simpl in Hstep; [|done]
    | context [array_store ?a ?i ?v] =>
        destruct (array_store a i v); simpl in Hstep; [|done]
    | context [array_load ?a ?i] => destruct (array_load a i); simpl in Hstep; [|done]
    | context [CircularQueueMP.push_esp8266 ?v ?m] =>
        destruct (CircularQueueMP.push_esp8266 v m) as [[??]|]; simpl in Hstep; [|done]
    | context [Atomic.compare_exchange ?s ?c ?e ?d] =>
        unfold Atomic.compare_exchange in Hstep
    | context [match ?k with Atomic.from_user => _ | _ => _ end] => destruct k
    | context [match ?k with O => _ | _ => _ end] => destruct k
    | context [_ !! _] => destruct (_ !! _); simpl in Hstep; [|done]
    | context [if decide ?P then _ else _] => destruct (decide P); simpl in Hstep
    | context [if ?b then _ else _] => destruct b eqn:?; simpl in Hstep
    end;
    try done;
    injection Hstep as <- <-; simpl; try done.
  all: unfold CircularQueueMP.m_inPosT, CircularQueueMP.m_outPos,
         CircularQueueMP.m_bufSize in *.
  all: try (split; done).
  all: try apply popn_copied_safe; try apply popn_copy_safe;
       rewrite ?length_insert; try lia.
  - destruct Hsafe as [[Hsize Hroom] Hin].
    pose proof (wrap_avail_range _ inPos _ (conj Hpos (proj2 Hn)) Hin Ho).
    match goal with H : (_ =? _) = false |- _ => apply Z.eqb_neq in H end. lia.
  - rewrite span_to_end by (done || lia). unfold cursor_ok in Ho. lia.
  - rewrite span_to_end by (done || lia). unfold cursor_ok, size_sub, INT_MAX in *.
    rewrite to_size_id by (unfold SIZE_MAX; lia). lia.
  - rewrite span_to_end by (done || lia). unfold cursor_ok, size_sub, INT_MAX in *.
    rewrite to_size_id by (unfold SIZE_MAX; lia). lia.
Qed.

Lemma step_defined spurious th m :
  wfMP m → 0 < CircularQueueMP.m_bufSize m →
  thread_ok (CircularQueueMP.m_bufSize m) th →
  thread_safe (CircularQueueMP.m_bufSize m) th →
  is_Some (Atomic.step spurious th m).
Proof.
  intros [[Hn Hlen Hi Ho] HL HC] Hpos Hok Hsafe.
  unfold CircularQueueMP.m_bufSize in *.
  assert (∀ a, is_Some (int_rem a (CircularQueue.m_bufSize (CircularQueueMP.base m))))
    as Hrem by (intros; by apply int_rem_defined).
  assert (∀ (i : Z) (v : T), cursor_ok (CircularQueue.m_bufSize (CircularQueueMP.base m)) i →
            is_Some (array_store (CircularQueue.m_buffer (CircularQueueMP.base m)) i v))
    as Hstore.
  { intros i v Hc. unfold array_store, cursor_ok in *.
    destruct (Z.leb_spec 0 i); [|lia].
    destruct (Z.ltb_spec i (Z.of_nat (length (CircularQueue.m_buffer (CircularQueueMP.base m)))));
      [by eexists|lia]. }
  assert (∀ i : Z, cursor_ok (CircularQueue.m_bufSize (CircularQueueMP.base m)) i →
            is_Some (array_load (CircularQueue.m_buffer (CircularQueueMP.base m)) i))
    as Hload.
  { intros i Hc. unfold array_load, cursor_ok in *.
    destruct (Z.ltb_spec i 0); [lia|]. apply lookup_lt_is_Some_2. lia. }
  destruct th; simpl in *;
    unfold CircularQueueMP.m_buffer, CircularQueueMP.m_outPos, CircularQueueMP.m_inPosT,
      CircularQueueMP.m_bufSize, CircularQueueMP.push_esp8266, Atomic.compare_exchange,
      size_rem in *; simpl in *;
    repeat match goal with
    | |- context [CircularQueueMP.m_bufSize _] =>
        unfold CircularQueueMP.m_bufSize, CircularQueueMP.m_inPosT,
          CircularQueueMP.m_outPos; simpl
    | |- context [CircularQueueMP.m_buffer _] => unfold CircularQueueMP.m_buffer; simpl
    | |- context [int_rem ?a _] => destruct (Hrem a) as [? ->]; simpl
    | |- context [array_store _ ?i ?v] =>
        destruct (Hstore i v) as [? ->]; [done|]; simpl
    | |- context [array_load _ ?i] => destruct (Hload i) as [? ->]; [done|]; simpl
    | |- context [match ?k with Atomic.from_user => _ | _ => _ end] => destruct k
    | |- context [match ?k with O => _ | _ => _ end] => destruct k
    | |- context [_ !! ?i] =>
        destruct (lookup_lt_is_Some_2 (CircularQueue.m_buffer (CircularQueueMP.base m)) i)
          as [? ->]; [lia|]; simpl
    | |- context [if decide ?P then _ else _] => destruct (decide P); [|lia]
    | |- context [to_size (CircularQueue.m_bufSize ?b)] =>
        rewrite (to_size_id (CircularQueue.m_bufSize b))
          by (unfold INT_MAX, SIZE_MAX in *; lia)
    | |- context [?a <? 0] => destruct (Z.ltb_spec a 0); [unfold cursor_ok in *; lia|]
    | |- context [?a =? 0] => destruct (Z.eqb_spec a 0); [lia|]
    | |- context [if ?b then _ else _] => destruct b
    end;
    by eexists.
Qed.

Lemma fire_safe e cfg cfg' :
  inv cfg → 0 < CircularQueueMP.m_bufSize (Atomic.queue cfg) → event_ok e →
  Forall (thread_safe (CircularQueueMP.m_bufSize (Atomic.queue cfg))) (Atomic.threads cfg) →
  Atomic.fire e cfg = Some cfg' →
  Forall (thread_safe (CircularQueueMP.m_bufSize (Atomic.queue cfg))) (Atomic.threads cfg').
Proof.
  intros [Hm Hoks] Hpos He Hsafes Hfire. destruct e as [i c|i spurious]; simpl in *.
  - destruct (Atomic.threads cfg !! i) as [th|] eqn:Hi; [|done]. simpl in Hfire.
    destruct th; try done. injection Hfire as <-. simpl.
    apply Forall_insert; [done|by apply enter_safe].
  - destruct (Atomic.threads cfg !! i) as [th|] eqn:Hi; [|done]. simpl in Hfire.
    destruct (Atomic.step _ _ _) as [[th' m']|] eqn:Hstep; [|done].
    injection Hfire as <-. simpl. apply Forall_insert; [done|].
    eapply step_safe; [done|done| | |exact Hstep].
    + by eapply Forall_lookup_1 in Hoks.
    + by eapply Forall_lookup_1 in Hsafes.
Qed.

Lemma exec_safe evs cfg cfg' :
  inv cfg → 0 < CircularQueueMP.m_bufSize (Atomic.queue cfg) → Forall event_ok evs →
  Forall (thread_safe (CircularQueueMP.m_bufSize (Atomic.queue cfg))) (Atomic.threads cfg) →
  Atomic.exec evs cfg = Some cfg' →
  Forall (thread_safe (CircularQueueMP.m_bufSize (Atomic.queue cfg))) (Atomic.threads cfg').
Proof.
  revert cfg. induction evs as [|e evs IH]; intros cfg Hinv Hpos Hevs Hsafes Hexec;
    simpl in Hexec.
  - by injection Hexec as <-.
  - apply Forall_cons_1 in Hevs as [He Hevs].
    destruct (Atomic.fire e cfg) as [cfg1|] eqn:Hfire; [|done]. simpl in Hexec.
    pose proof (fire_safe _ _ _ Hinv Hpos He Hsafes Hfire) as Hsafes1.
    apply fire_inv in Hfire as [Hinv1 Hn1]; [|done].
    rewrite <-Hn1 in *. by apply IH.
Qed.

(** Memory safety.  In a queue with at least one slot, whatever calls any
    number of threads make (a [pop_n] being given an array with room for the
    count it asks for) and however their atomic accesses interleave, the
    next step of every thread is defined: no member function indexes the
    storage or the caller's array out of bounds or takes a remainder by
    zero. *)
Theorem no_undefined_step granted capacity (fresh : nat → T) q0 nthreads evs cfg i th
    spurious :
  CircularQueueMP.new granted capacity fresh = Some q0 →
  0 < CircularQueueMP.m_bufSize q0 →
  Forall event_ok evs →
  Atomic.exec evs (Atomic.start q0 nthreads) = Some cfg →
  Atomic.threads cfg !! i = Some th →
  is_Some (Atomic.step spurious th (Atomic.queue cfg)).
Proof.
  intros Hnew Hpos Hevs Hexec Hi.
  apply newMP_wf in Hnew as (Hwf & _ & _).
  pose proof (start_inv q0 nthreads Hwf) as Hinv.
  pose proof (exec_inv _ _ _ Hinv Hexec) as [[Hm Hoks] Hn].
  eapply exec_safe in Hexec; [|done|done|done|by apply Forall_replicate].
  simpl in *. rewrite <-Hn in *.
  apply step_defined; [done|done| |].
  - by eapply Forall_lookup_1 in Hoks.
  - by eapply Forall_lookup_1 in Hexec.
Qed.

End Safety.

(** ** Who writes what *)

Section Ownership.
Context {T : Type} `{!ValueInit T}.
Implicit Types (m : CircularQueueMP.t T) (cfg : Atomic.config T).

Lemma popn_copied_consumer size outPos rest (buffer : list T) pos :
  consumer_side (Atomic.popn_copied size outPos rest buffer pos).
Proof. unfold Atomic.popn_copied. by case_match. Qed.

Lemma popn_copy_consumer size outPos rest first k (buffer : list T) pos :
  consumer_side (Atomic.popn_copy size outPos rest first k buffer pos).
Proof. destruct k; [apply popn_copied_consumer|done]. Qed.

Lemma step_consumer spurious th m th' m' :
  consumer_side th → Atomic.step spurious th m = Some (th', m') →
  consumer_side th' ∧
  CircularQueueMP.m_inPosT m' = CircularQueueMP.m_inPosT m ∧
  CircularQueueMP.m_buffer m' = CircularQueueMP.m_buffer m ∧
  CircularQueueMP.m_inPosL m' = CircularQueueMP.m_inPosL m ∧
  CircularQueueMP.m_inPosC m' = CircularQueueMP.m_inPosC m ∧
  CircularQueueMP.m_bufSize m' = CircularQueueMP.m_bufSize m.
Proof.
  intros Hside Hstep.
  destruct th; try done; simpl in Hstep;
    repeat match type of Hstep with
    | context [int_rem ?a ?b] => destruct (int_rem a b); simpl in Hstep; [|done]
    | context [size_rem ?a ?b] => destruct (size_rem a b); simpl in Hstep; [|done]
    | context [array_load ?a ?i] => destruct (array_load a i); simpl in Hstep; [|done]
    | context [match ?k with Atomic.from_user => _ | _ => _ end] => destruct k
    | context [match ?k with O => _ | _ => _ end] => destruct k
    | context [_ !! _] => destruct (_ !! _); simpl in Hstep; [|done]
    | context [if decide ?P then _ else _] => destruct (decide P); simpl in Hstep
    | context [if ?b then _ else _] => destruct b; simpl in Hstep
    end;
    try done; injection Hstep as <- <-;
    (split; [try done; (apply popn_copy_consumer || apply popn_copied_consumer)|done]).
Qed.

Lemma step_producer spurious th m th' m' :
  producer_side th → Atomic.step spurious th m = Some (th', m') →
  producer_side th' ∧
  CircularQueueMP.m_outPos m' = CircularQueueMP.m_outPos m ∧
  CircularQueueMP.m_bufSize m' = CircularQueueMP.m_bufSize m.
Proof.
  intros Hside Hstep.
  destruct th; try done; simpl in Hstep;
    repeat match type of Hstep with
    | context [int_rem ?a ?b] => destruct (int_rem a b); simpl in Hstep; [|done]
    | context [array_store ?a ?i ?v] =>
        destruct (array_store a i v); simpl in Hstep; [|done]
    | context [Atomic.compare_exchange ?s ?c ?e ?d] =>
        unfold Atomic.compare_exchange in Hstep
    | context [if ?b then _ else _] => destruct b; simpl in Hstep
    end;
    try done; try (injection Hstep as <- <-; done).
  unfold CircularQueueMP.push_esp8266 in Hstep.
  destruct (int_rem _ _); simpl in Hstep; [|done].
  destruct (_ =? _); simpl in Hstep; [by injection Hstep as <- <-|].
  destruct (array_store _ _ _); simpl in Hstep; [|done].
  by injection Hstep as <- <-.
Qed.

(** The consumer's members ([flush], [available], [peek], [pop], [pop_n])
    write nothing but the read cursor: through any interleaving of any number
    of such calls the write cursor, the storage, [m_inPosL], [m_inPosC] and
    the slot count stay as they were. *)
Theorem consumer_writes_only_read_cursor evs cfg cfg' :
  Forall consumer_event evs → Forall consumer_side (Atomic.threads cfg) →
  Atomic.exec evs cfg = Some cfg' →
  CircularQueueMP.m_inPosT (Atomic.queue cfg') = CircularQueueMP.m_inPosT (Atomic.queue cfg) ∧
  CircularQueueMP.m_buffer (Atomic.queue cfg') = CircularQueueMP.m_buffer (Atomic.queue cfg) ∧
  CircularQueueMP.m_inPosL (Atomic.queue cfg') = CircularQueueMP.m_inPosL (Atomic.queue cfg) ∧
  CircularQueueMP.m_inPosC (Atomic.queue cfg') = CircularQueueMP.m_inPosC (Atomic.queue cfg) ∧
  CircularQueueMP.m_bufSize (Atomic.queue cfg') = CircularQueueMP.m_bufSize (Atomic.queue cfg) ∧
  Forall consumer_side (Atomic.threads cfg').
Proof.
  revert cfg. induction evs as [|e evs IH]; intros cfg Hevs Hths Hexec; simpl in Hexec.
  - by injection Hexec as <-.
  - apply Forall_cons_1 in Hevs as [He Hevs].
    destruct (Atomic.fire e cfg) as [cfg1|] eqn:Hfire; [|done]. simpl in Hexec.
    assert (Forall consumer_side (Atomic.threads cfg1) ∧
            CircularQueueMP.m_inPosT (Atomic.queue cfg1) = CircularQueueMP.m_inPosT (Atomic.queue cfg) ∧
            CircularQueueMP.m_buffer (Atomic.queue cfg1) = CircularQueueMP.m_buffer (Atomic.queue cfg) ∧
            CircularQueueMP.m_inPosL (Atomic.queue cfg1) = CircularQueueMP.m_inPosL (Atomic.queue cfg) ∧
            CircularQueueMP.m_inPosC (Atomic.queue cfg1) = CircularQueueMP.m_inPosC (Atomic.queue cfg) ∧
            CircularQueueMP.m_bufSize (Atomic.queue cfg1) = CircularQueueMP.m_bufSize (Atomic.queue cfg))
      as (Hths1 & HT & HB & HL & HC & HN).
    { destruct e as [i c|i spurious]; simpl in Hfire.
      - destruct (Atomic.threads cfg !! i) as [th|] eqn:Hi; [|done]. simpl in Hfire.
        destruct th; try done. injection Hfire as <-. simpl.
        split; [|done]. apply Forall_insert; [done|]. by destruct c.
      - destruct (Atomic.threads cfg !! i) as [th|] eqn:Hi; [|done]. simpl in Hfire.
        destruct (Atomic.step _ _ _) as [[th' m']|] eqn:Hstep; [|done].
        injection Hfire as <-. simpl.
        eapply step_consumer in Hstep as (? & ?); [|by eapply Forall_lookup_1 in Hths].
        split; [|done]. by apply Forall_insert. }
    apply IH in Hexec as (? & ? & ? & ? & ? & ?); [|done..].
    split_and!; (done || congruence).
Qed.

(** The producers' members ([availableForWrite] and [push] of both classes)
    never write the read cursor: through any interleaving of any number of
    such calls [m_outPos] and the slot count stay as they were. *)
Theorem producers_never_write_read_cursor evs cfg cfg' :
  Forall producer_event evs → Forall producer_side (Atomic.threads cfg) →
  Atomic.exec evs cfg = Some cfg' →
  CircularQueueMP.m_outPos (Atomic.queue cfg') = CircularQueueMP.m_outPos (Atomic.queue cfg) ∧
  CircularQueueMP.m_bufSize (Atomic.queue cfg') = CircularQueueMP.m_bufSize (Atomic.queue cfg) ∧
  Forall producer_side (Atomic.threads cfg').
Proof.
  revert cfg. induction evs as [|e evs IH]; intros cfg Hevs Hths Hexec; simpl in Hexec.
  - by injection Hexec as <-.
  - apply Forall_cons_1 in Hevs as [He Hevs].
    destruct (Atomic.fire e cfg) as [cfg1|] eqn:Hfire; [|done]. simpl in Hexec.
    assert (Forall producer_side (Atomic.threads cfg1) ∧
            CircularQueueMP.m_outPos (Atomic.queue cfg1) = CircularQueueMP.m_outPos (Atomic.queue cfg) ∧
            CircularQueueMP.m_bufSize (Atomic.queue cfg1) = CircularQueueMP.m_bufSize (Atomic.queue cfg))
      as (Hths1 & HO & HN).
    { destruct e as [i c|i spurious]; simpl in Hfire.
      - destruct (Atomic.threads cfg !! i) as [th|] eqn:Hi; [|done]. simpl in Hfire.
        destruct th; try done. injection Hfire as <-. simpl.
        split; [|done]. apply Forall_insert; [done|]. by destruct c.
      - destruct (Atomic.threads cfg !! i) as [th|] eqn:Hi; [|done]. simpl in Hfire.
        destruct (Atomic.step _ _ _) as [[th' m']|] eqn:Hstep; [|done].
        injection Hfire as <-. simpl.
        eapply step_producer in Hstep as (? & ?); [|by eapply Forall_lookup_1 in Hths].
        split; [|done]. by apply Forall_insert. }
    apply IH in Hexec as (? & ? & ?); [|done..].
    split_and!; (done || congruence).
Qed.

End Ownership.

(** ** [CircularQueueMP] with one producer at a time *)

Section OneProducer.
Context {T : Type} `{!ValueInit T}.
Implicit Types (m : CircularQueueMP.t T).

Lemma run_mp_push_quiescent m val b q' :
  quiescent m →
  CircularQueue.push val (CircularQueueMP.base m) = Some (b, q') →
  ∃ m',
    Atomic.run (replicate 8 false) (Atomic.MPush_loadL val) m
      = Some (Atomic.Ret (Atomic.r_bool b), m') ∧
    CircularQueueMP.base m' = q' ∧ quiescent m'.
Proof.
  intros [HL HC]. unfold CircularQueue.push.
  destruct m as [[N buf I O] L C].
  unfold CircularQueueMP.m_inPosT in *. simpl in *. subst L C.
  destruct (int_rem (int_add I 1) N) as [next|] eqn:Hnext; [|done]. simpl.
  unfold CircularQueueMP.m_bufSize, CircularQueueMP.m_outPos; simpl.
  rewrite Hnext. simpl. destruct (Z.eqb_spec next O).
  { intros [= <- <-]. simpl. eexists. by split_and!. }
  simpl. destruct (array_store buf I val) as [buf'|] eqn:Hbuf; [|done].
  simpl. intros [= <- <-].
  unfold Atomic.compare_exchange. rewrite Z.eqb_refl. simpl.
  unfold CircularQueueMP.m_buffer at 1; simpl. rewrite Hbuf. simpl.
  unfold CircularQueueMP.m_bufSize at 1; simpl. rewrite Hnext. simpl.
  unfold Atomic.compare_exchange. rewrite Z.eqb_refl. simpl.
  unfold Atomic.compare_exchange. rewrite Z.eqb_refl. simpl.
  eexists. by split_and!.
Qed.

Lemma mp_pushes_as_pushes (vs : list T) m bs q' :
  quiescent m →
  pushes vs (CircularQueueMP.base m) = Some (bs, q') →
  ∃ m', mp_pushes vs m = Some (bs, m') ∧ CircularQueueMP.base m' = q' ∧ quiescent m'.
Proof.
  revert m bs. induction vs as [|v vs IH]; intros m bs Hq Hpush; simpl in Hpush.
  - injection Hpush as <- <-. by exists m.
  - destruct (CircularQueue.push v _) as [[b q1]|] eqn:Hv; [|done]. simpl in Hpush.
    destruct (pushes vs q1) as [[bs1 q2]|] eqn:Hvs; [|done]. simpl in Hpush.
    injection Hpush as <- <-.
    destruct (run_mp_push_quiescent m v b q1 Hq Hv) as (m1 & Hrun & <- & Hq1).
    destruct (IH m1 bs1 Hq1 Hvs) as (m2 & Hmp & <- & Hq2).
    exists m2. cbn [mp_pushes]. rewrite Hrun. simpl. rewrite Hmp. by simpl.
Qed.

(** A [CircularQueueMP] whose producers call [push] one after the other is a
    FIFO like the base class: into any queue [m0] the constructor yields for
    a capacity [C] (with [C + 1 ≤ INT_MAX]) at most [C] values pushed in a
    row are all accepted, the three producer cursors agree afterwards,
    [CircularQueueMP::availableForWrite()] has gone down by their number, and
    as many calls of [pop()] return the values in order. *)
Theorem mp_fifo_round_trip granted C (fresh : nat → T) m0 (vs : list T) :
  0 ≤ C → C + 1 ≤ INT_MAX → Z.of_nat (length vs) ≤ C →
  CircularQueueMP.new granted C fresh = Some m0 →
  ∃ m1 q2,
    mp_pushes vs m0 = Some (replicate (length vs) true, m1) ∧
    quiescent m1 ∧
    CircularQueueMP.availableForWrite m1 = C - Z.of_nat (length vs) ∧
    pops (length vs) (CircularQueueMP.base m1) = Some (vs, q2).
Proof.
  intros H0 Hmax Hvs Hm0. unfold CircularQueueMP.new in Hm0.
  destruct (CircularQueue.new granted C fresh) as [q0|] eqn:Hnew; [|done].
  injection Hm0 as <-.
  pose proof (new_in_range _ _ _ _ H0 Hmax Hnew) as HN.
  destruct (fresh_of_nats _ _ _ _ Hnew) as (n & buf & -> & Hn & Hlen & Hpos); [lia|].
  simpl in HN.
  assert (free n 0 0 = (n - 1)%nat) as Hfree by (unfold free; case_decide; lia).
  destruct (pushes_of_nats vs n buf 0 0) as (buf' & Hlen' & Hpush & Hc);
    [done|done|lia|lia|lia|].
  destruct (mp_pushes_as_pushes vs (CircularQueueMP.mk (of_nats n buf 0 0) 0 0)
              _ _ (conj eq_refl eq_refl) Hpush) as (m1 & Hmp & Hbase & Hq1).
  assert (slot n 0 (length vs) < n)%nat as Hi by (unfold slot; case_decide; lia).
  exists m1, (of_nats n buf' (slot n 0 (length vs)) (slot n 0 (length vs))).
  split; [done|]. split; [done|]. split.
  - destruct Hq1 as [HL _]. unfold CircularQueueMP.availableForWrite.
    rewrite HL. unfold CircularQueueMP.m_inPosT, CircularQueueMP.m_outPos,
      CircularQueueMP.m_bufSize. rewrite Hbase.
    fold (CircularQueue.availableForWrite (of_nats n buf' (slot n 0 (length vs)) 0)).
    rewrite availableForWrite_of_nats by (done || lia).
    unfold free, slot. repeat case_decide; lia.
  - rewrite Hbase. rewrite pops_of_nats; [|done|done|lia|lia|].
    + rewrite Hc. rewrite (contents_of_nats n buf 0 0) by (done || lia).
      replace (used n 0 0) with 0%nat by (unfold used; case_decide; lia).
      rewrite take_0. simpl. by rewrite firstn_all.
    + unfold used, slot. repeat case_decide; lia.
Qed.

Lemma esp8266_pushes_as_pushes (vs : list T) m :
  esp8266_pushes vs m =
    '(bs, q) ← pushes vs (CircularQueueMP.base m);
    Some (bs, CircularQueueMP.set_base q m).
Proof.
  revert m. induction vs as [|v vs IH]; intros m; simpl; [by destruct m|].
  unfold CircularQueueMP.push_esp8266, CircularQueue.push.
  unfold CircularQueueMP.m_inPosT, CircularQueueMP.m_bufSize, CircularQueueMP.m_outPos.
  destruct (int_rem _ _) as [next|]; simpl; [|done].
  destruct (_ =? _); simpl.
  - rewrite IH. destruct (pushes vs _) as [[bs q]|]; simpl; [|done]. by destruct m.
  - unfold CircularQueueMP.m_buffer; simpl.
    destruct (array_store _ _ _) as [buf|]; simpl; [|done].
    rewrite IH. simpl. by destruct (pushes vs _) as [[bs q]|].
Qed.

(** The ESP8266 body of [CircularQueueMP::push] advances [m_inPosT] only, but
    [CircularQueueMP::availableForWrite()] reads [m_inPosL]: after any
    [k ≤ C] pushes into a queue [m0] the constructor yields for a capacity
    [C] (all of them accepted) the base class counts [C - k] free slots while
    [CircularQueueMP::availableForWrite()] still returns [C], also when the
    queue is full. *)
Theorem esp8266_availableForWrite_ignores_pushes granted C (fresh : nat → T) m0
    (vs : list T) :
  0 ≤ C → C + 1 ≤ INT_MAX → Z.of_nat (length vs) ≤ C →
  CircularQueueMP.new granted C fresh = Some m0 →
  ∃ m1,
    esp8266_pushes vs m0 = Some (replicate (length vs) true, m1) ∧
    CircularQueue.availableForWrite (CircularQueueMP.base m1) = C - Z.of_nat (length vs) ∧
    CircularQueueMP.availableForWrite m1 = C.
Proof.
  intros H0 Hmax Hvs Hm0. unfold CircularQueueMP.new in Hm0.
  destruct (CircularQueue.new granted C fresh) as [q0|] eqn:Hnew; [|done].
  injection Hm0 as <-.
  pose proof (new_in_range _ _ _ _ H0 Hmax Hnew) as HN.
  destruct (fresh_of_nats _ _ _ _ Hnew) as (n & buf & -> & Hn & Hlen & Hpos); [lia|].
  simpl in HN.
  assert (free n 0 0 = (n - 1)%nat) as Hfree by (unfold free; case_decide; lia).
  destruct (pushes_of_nats vs n buf 0 0) as (buf' & Hlen' & Hpush & Hc);
    [done|done|lia|lia|lia|].
  assert (slot n 0 (length vs) < n)%nat as Hi by (unfold slot; case_decide; lia).
  eexists.
  rewrite esp8266_pushes_as_pushes. simpl. rewrite Hpush. simpl.
  split; [done|]. unfold CircularQueueMP.set_base. split.
  - cbn [CircularQueueMP.base].
    rewrite availableForWrite_of_nats by (done || lia).
    unfold free, slot. repeat case_decide; lia.
  - change (CircularQueueMP.availableForWrite _)
      with (CircularQueue.availableForWrite (of_nats n buf' 0 0)).
    rewrite availableForWrite_of_nats by (done || lia). lia.
Qed.

End OneProducer.

(** ** One producer in [CircularQueueMP::push] against one consumer in [pop] *)

Section Spsc.
Context {T : Type} `{!ValueInit T}.
Implicit Types (buf : list T) (P K th : Atomic.thread T).

Lemma contents_store_free n buf i o val :
  Z.of_nat n ≤ INT_MAX → length buf = n → (i < n)%nat → (o < n)%nat →
  contents (of_nats n (<[i := val]> buf) i o) = contents (of_nats n buf i o).
Proof.
  intros Hn Hlen Hi Ho. apply list_eq. intros k.
  destruct (decide (k < used n i o)%nat) as [Hk|Hk].
  - rewrite !lookup_contents by (done || by rewrite length_insert).
    apply list_lookup_insert_ne. intros Heq. by apply (slot_not_used n i o k).
  - rewrite !lookup_ge_None_2; [done|..];
      rewrite length_contents by (done || by rewrite length_insert); lia.
Qed.

Lemma contents_publish n buf i o x :
  Z.of_nat n ≤ INT_MAX → length buf = n → (i < n)%nat → (o < n)%nat →
  slot n i 1 ≠ o → buf !! i = Some x →
  contents (of_nats n buf (slot n i 1) o) = contents (of_nats n buf i o) ++ [x].
Proof.
  intros Hn Hlen Hi Ho Hne Hx.
  rewrite <- (contents_push n buf i o x); [|done..|].
  - by rewrite list_insert_id.
  - unfold free, slot in *. repeat case_decide; lia.
Qed.

Lemma slot_1_lt n c : (c < n)%nat → (slot n c 1 < n)%nat.
Proof. unfold slot. intros. case_decide; lia. Qed.

Lemma consumer_at_keep buf buf' i i' o K :
  (i ≠ o → buf' !! o = buf !! o) → (i ≠ o → i' ≠ o) →
  consumer_at buf i o K → consumer_at buf' i' o K.
Proof.
  intros Hbuf Hi. destruct K; simpl; try done.
  - intros [? ?]. auto.
  - intros (? & ? & ?). rewrite Hbuf by done. auto.
Qed.

Lemma spsc_producer_step n buf i o L C P spurious P' m' :
  Z.of_nat n ≤ INT_MAX → length buf = n → (i < n)%nat → (o < n)%nat →
  producer_at n i o L C P →
  Atomic.step spurious P (CircularQueueMP.mk (of_nats n buf i o) L C) = Some (P', m') →
  ∃ buf' i' L' C',
    m' = CircularQueueMP.mk (of_nats n buf' i' o) L' C' ∧
    length buf' = n ∧ (i' < n)%nat ∧
    producer_at n i' o L' C' P' ∧
    (∀ K, consumer_at buf i o K → consumer_at buf' i' o K) ∧
    contents (of_nats n buf i o)
      ++ in_flight P (CircularQueueMP.mk (of_nats n buf i o) L C) ++ stored_by P
    = contents (of_nats n buf' i' o) ++ in_flight P' m'.
Proof.
  intros Hn Hlen Hi Ho HP Hstep.
  pose proof (slot_1_lt n i Hi) as Hi1.
  pose proof (next_of_nats n i Hn Hi) as Hnext.
  destruct P; simpl in HP; try done; simpl in Hstep;
    unfold CircularQueueMP.m_inPosT, CircularQueueMP.m_outPos, CircularQueueMP.m_bufSize,
      CircularQueueMP.m_buffer in Hstep; simpl in Hstep.
  - (* Ret *)
    injection Hstep as <- <-. exists buf, i, L, C; spsc_same.
  - (* MAvailW_loadOut *)
    injection Hstep as <- <-. exists buf, i, L, C; spsc_same.
  - (* MAvailW_loadL *)
    injection Hstep as <- <-. exists buf, i, L, C; spsc_same.
  - (* MPush_loadL *)
    injection Hstep as <- <-. destruct HP as [-> ->]. exists buf, i, (Z.of_nat i), (Z.of_nat i); spsc_same.
  - (* MPush_loadOut *)
    destruct HP as (-> & -> & ->). rewrite Hnext in Hstep. simpl in Hstep.
    destruct (Z.eqb_spec (Z.of_nat (slot n i 1)) (Z.of_nat o));
      injection Hstep as <- <-; exists buf, i, (Z.of_nat i), (Z.of_nat i);
      split_and!; try done. simpl. split_and!; (done || lia).
  - (* MPush_casL *)
    destruct HP as (-> & -> & -> & -> & Hne).
    unfold Atomic.compare_exchange in Hstep. rewrite Z.eqb_refl in Hstep.
    destruct spurious; simpl in Hstep; injection Hstep as <- <-.
    + exists buf, i, (Z.of_nat i), (Z.of_nat i); spsc_same.
    + exists buf, i, (Z.of_nat (slot n i 1)), (Z.of_nat i); spsc_same.
  - (* MPush_storeBuf *)
    destruct HP as (-> & -> & -> & Hne). unfold array_store in Hstep.
    replace ((0 <=? Z.of_nat i) && (Z.of_nat i <? Z.of_nat (length buf))) with true in Hstep
      by (symmetry; apply andb_true_iff; split; [apply Z.leb_le|apply Z.ltb_lt]; lia).
    simpl in Hstep. rewrite Nat2Z.id in Hstep. injection Hstep as <- <-.
    exists (<[i := val]> buf), i, (Z.of_nat (slot n i 1)), (Z.of_nat i).
    split_and!; try done.
    + by rewrite length_insert.
    + intros K. apply consumer_at_keep; [|done].
      intros Hio. by apply list_lookup_insert_ne.
    + simpl. unfold CircularQueueMP.m_buffer, CircularQueueMP.m_inPosT. simpl.
      rewrite Nat2Z.id, list_lookup_insert_eq by lia.
      by rewrite contents_store_free.
  - (* MPush_loadC *)
    injection Hstep as <- <-. destruct HP as (-> & -> & Hne).
    exists buf, i, (Z.of_nat (slot n i 1)), (Z.of_nat i); spsc_same.
  - (* MPush_casC *)
    destruct HP as (-> & -> & Hne).
    destruct (int_rem (int_add inPosC 1) (Z.of_nat n)) as [w|] eqn:Hw; simpl in Hstep; [|done].
    unfold Atomic.compare_exchange in Hstep.
    destruct (Z.eqb_spec (Z.of_nat i) inPosC) as [<-|]; destruct spurious; simpl in Hstep;
      injection Hstep as <- <-;
      try (exists buf, i, (Z.of_nat (slot n i 1)), (Z.of_nat i); spsc_same).
    rewrite Hnext in Hw. injection Hw as <-.
    exists buf, i, (Z.of_nat (slot n i 1)), (Z.of_nat (slot n i 1)); spsc_same.
  - (* MPush_casL2 *)
    destruct HP as (-> & -> & -> & Hne).
    unfold Atomic.compare_exchange in Hstep. rewrite Z.eqb_refl in Hstep.
    simpl in Hstep. injection Hstep as <- <-.
    exists buf, i, (Z.of_nat (slot n i 1)), (Z.of_nat (slot n i 1)); spsc_same.
  - (* MPush_storeT *)
    destruct HP as (-> & -> & -> & Hne). injection Hstep as <- <-.
    exists buf, (slot n i 1), (Z.of_nat (slot n i 1)), (Z.of_nat (slot n i 1)).
    split_and!; try done.
    + intros K. by apply consumer_at_keep.
    + simpl. unfold CircularQueueMP.m_buffer, CircularQueueMP.m_inPosT. simpl.
      destruct (lookup_lt_is_Some_2 buf i) as [x Hx]; [lia|].
      rewrite Nat2Z.id, Hx. simpl.
      rewrite (contents_publish n buf i o x) by done. by rewrite !app_nil_r.
Qed.

Lemma producer_at_keep n i o o' L C P :
  (slot n i 1 ≠ o → slot n i 1 ≠ o') →
  producer_at n i o L C P → producer_at n i o' L C P.
Proof. intros Ho. destruct P; simpl; try done; intros HP; split_and!; try apply HP; apply Ho, HP. Qed.

Lemma spsc_consumer_step n buf i o L C K spurious K' m' :
  Z.of_nat n ≤ INT_MAX → length buf = n → (i < n)%nat → (o < n)%nat →
  consumer_at buf i o K →
  Atomic.step spurious K (CircularQueueMP.mk (of_nats n buf i o) L C) = Some (K', m') →
  ∃ o',
    m' = CircularQueueMP.mk (of_nats n buf i o') L C ∧ (o' < n)%nat ∧
    consumer_at buf i o' K' ∧
    (∀ P, producer_at n i o L C P → producer_at n i o' L C P) ∧
    contents (of_nats n buf i o) = returned_by K ++ contents (of_nats n buf i o').
Proof.
  intros Hn Hlen Hi Ho HK Hstep.
  pose proof (slot_1_lt n o Ho) as Ho1.
  pose proof (next_of_nats n o Hn Ho) as Hnext.
  destruct K; simpl in HK; try done; simpl in Hstep;
    unfold CircularQueueMP.m_inPosT, CircularQueueMP.m_outPos, CircularQueueMP.m_bufSize,
      CircularQueueMP.m_buffer in Hstep; simpl in Hstep.
  - (* Ret *)
    injection Hstep as <- <-. by exists o.
  - (* Avail_loadIn *)
    destruct k; [|done]. injection Hstep as <- <-. by exists o.
  - (* Avail_loadOut *)
    destruct k; [|done]. injection Hstep as <- <-. by exists o.
  - (* Peek_loadOut *)
    injection Hstep as <- <-. by exists o.
  - (* Peek_loadIn *)
    destruct (_ =? _); injection Hstep as <- <-; by exists o.
  - (* Peek_loadBuf *)
    destruct (array_load _ _); simpl in Hstep; [|done].
    injection Hstep as <- <-. by exists o.
  - (* Pop_loadOut *)
    injection Hstep as <- <-. by exists o.
  - (* Pop_loadIn *)
    subst outPos.
    destruct (Z.eqb_spec (Z.of_nat i) (Z.of_nat o)); injection Hstep as <- <-; exists o;
      split_and!; try done. simpl. split; [done|lia].
  - (* Pop_loadBuf *)
    destruct HK as [-> Hne]. unfold array_load in Hstep.
    destruct (Z.ltb_spec (Z.of_nat o) 0); [lia|]. rewrite Nat2Z.id in Hstep.
    destruct (buf !! o) as [x|] eqn:Hx; simpl in Hstep; [|done].
    injection Hstep as <- <-. by exists o.
  - (* Pop_xchgOut *)
    destruct HK as (-> & Hne & Hx). rewrite Hnext in Hstep. simpl in Hstep.
    injection Hstep as <- <-. exists (slot n o 1). split_and!; try done.
    + intros P. apply producer_at_keep. unfold slot. repeat case_decide; lia.
    + simpl. by apply contents_pop.
Qed.

Lemma start_spsc granted capacity (fresh : nat → T) q0 :
  CircularQueueMP.new granted capacity fresh = Some q0 → 0 < CircularQueueMP.m_bufSize q0 →
  spsc_inv (Atomic.start q0 2).
Proof.
  unfold CircularQueueMP.new. intros Hnew Hpos.
  destruct (CircularQueue.new granted capacity fresh) as [q|] eqn:Hq; [|done].
  injection Hnew as <-.
  destruct (fresh_of_nats _ _ _ _ Hq) as (n & buf & -> & Hn & Hlen & Hn0); [done|].
  exists n, buf, 0%nat, 0%nat, 0, 0, (Atomic.Ret Atomic.r_void), (Atomic.Ret Atomic.r_void).
  by split_and!.
Qed.

Lemma fire_spsc e cfg cfg' :
  spsc_event e → spsc_inv cfg → Atomic.fire e cfg = Some cfg' →
  spsc_inv cfg' ∧
  contents (CircularQueueMP.base (Atomic.queue cfg)) ++ unpublished cfg
    ++ from_option stored_by [] (stepping e cfg)
  = from_option returned_by [] (stepping e cfg)
    ++ contents (CircularQueueMP.base (Atomic.queue cfg')) ++ unpublished cfg'.
Proof.
  intros He (n & buf & i & o & L & C & P & K & -> & Hn & Hlen & Hi & Ho & HP & HK) Hfire.
  destruct e as [j c|j spurious]; simpl in Hfire.
  - (* a call *)
    destruct j as [|[|j]]; simpl in Hfire, He; [| |by destruct c].
    + destruct P; try done. destruct c; try done; injection Hfire as <-.
      all: split; [|unfold unpublished; simpl; by rewrite !app_nil_r].
      all: eexists n, buf, i, o, L, C, _, _; split_and!; [reflexivity|done..].
    + destruct K; try done. destruct c; try done; injection Hfire as <-.
      all: split; [|unfold unpublished; simpl; by rewrite !app_nil_r].
      all: eexists n, buf, i, o, L, C, _, _; split_and!; [reflexivity|done..].
  - (* a step *)
    destruct j as [|[|j]]; simpl in Hfire; [| |done].
    + destruct (Atomic.step spurious P _) as [[P' m']|] eqn:Hstep; simpl in Hfire; [|done].
      injection Hfire as <-.
      destruct (spsc_producer_step _ _ _ _ _ _ _ _ _ _ Hn Hlen Hi Ho HP Hstep)
        as (buf' & i' & L' & C' & -> & Hlen' & Hi' & HP' & HK' & Heq).
      split; [exists n, buf', i', o, L', C', P', K; split_and!; auto|].
      unfold unpublished. simpl. rewrite Heq.
      by replace (returned_by P) with (@nil T) by (by destruct P).
    + destruct (Atomic.step spurious K _) as [[K' m']|] eqn:Hstep; simpl in Hfire; [|done].
      injection Hfire as <-.
      destruct (spsc_consumer_step _ _ _ _ _ _ _ _ _ _ Hn Hlen Hi Ho HK Hstep)
        as (o' & -> & Ho' & HK' & HP' & Heq).
      split; [exists n, buf, i, o', L, C, P, K'; split_and!; auto|].
      unfold unpublished. simpl. rewrite Heq.
      replace (stored_by K) with (@nil T) by (by destruct K).
      by rewrite app_nil_r, <- app_assoc.
Qed.

Lemma exec_spsc evs cfg cfg' :
  Forall spsc_event evs → spsc_inv cfg → Atomic.exec evs cfg = Some cfg' →
  spsc_inv cfg' ∧
  contents (CircularQueueMP.base (Atomic.queue cfg)) ++ unpublished cfg ++ stored evs cfg
  = delivered evs cfg
    ++ contents (CircularQueueMP.base (Atomic.queue cfg')) ++ unpublished cfg'.
Proof.
  intros Hevs. revert cfg. induction Hevs as [|e evs He Hevs IH]; intros cfg Hinv Hexec;
    simpl in Hexec.
  - injection Hexec as <-. split; [done|]. simpl. by rewrite app_nil_r.
  - destruct (Atomic.fire e cfg) as [cfg1|] eqn:Hfire; simpl in Hexec; [|done].
    destruct (fire_spsc e cfg cfg1 He Hinv Hfire) as [Hinv1 Heq1].
    destruct (IH cfg1 Hinv1 Hexec) as [Hinv' Heq']. split; [done|].
    simpl. rewrite Hfire. simpl.
    rewrite <- !app_assoc, <- Heq'.
    rewrite !app_assoc. f_equal. rewrite <- !app_assoc. done.
Qed.

(** One producer calling [CircularQueueMP::push] and one consumer calling
    [pop], interleaved in any way, weak exchanges failing spuriously at will:
    the values the pops have returned, then the unread elements of the queue,
    then the value of a push that has written its slot but not yet moved
    [m_inPosT], are exactly the values the pushes have stored, in order.  So
    [pop] delivers the pushed values first in, first out, none lost, none
    twice, and never a slot that was not written. *)
Theorem mp_push_pop_fifo granted capacity (fresh : nat → T) q0 evs cfg :
  CircularQueueMP.new granted capacity fresh = Some q0 →
  0 < CircularQueueMP.m_bufSize q0 →
  Forall spsc_event evs →
  Atomic.exec evs (Atomic.start q0 2) = Some cfg →
  stored evs (Atomic.start q0 2)
    = delivered evs (Atomic.start q0 2)
        ++ contents (CircularQueueMP.base (Atomic.queue cfg)) ++ unpublished cfg.
Proof.
  intros Hnew Hpos Hevs Hexec.
  pose proof (start_spsc granted capacity fresh q0 Hnew Hpos) as Hinv.
  destruct (exec_spsc evs _ cfg Hevs Hinv Hexec) as [_ Heq].
  rewrite <- Heq. clear Heq Hinv Hexec.
  unfold CircularQueueMP.new in Hnew.
  destruct (CircularQueue.new granted capacity fresh) as [q|] eqn:Hq; [|done].
  injection Hnew as <-.
  destruct (fresh_of_nats _ _ _ _ Hq) as (n & buf & -> & Hn & Hlen & Hn0); [done|].
  unfold unpublished. by simpl.
Qed.

End Spsc.

(** ** Concrete instances of the further properties *)

Lemma push_appends_witness :
  reachable drained_example ∧ 0 < CircularQueue.m_bufSize drained_example ∧
  ∃ b q', CircularQueue.push 7 drained_example = Some (b, q') ∧
    (b = true ↔ 0 < CircularQueue.availableForWrite drained_example) ∧
    (if b
     then contents q' = contents drained_example ++ [7] ∧
          CircularQueue.availableForWrite q'
            = CircularQueue.availableForWrite drained_example - 1 ∧
          CircularQueue.m_outPos q' = CircularQueue.m_outPos drained_example
     else q' = drained_example).
Proof.
  split; [apply drained_example_reachable|]. split; [simpl; lia|].
  apply (push_appends drained_example 7); [apply drained_example_reachable|simpl; lia].
Defined.

Lemma pop_removes_oldest_witness :
  reachable wrapped_example ∧
  ∃ v q', CircularQueue.pop wrapped_example = Some (v, q') ∧
    match contents wrapped_example with
    | [] => v = CircularQueue.defaultValue ∧ q' = wrapped_example
    | x :: rest =>
        v = x ∧ contents q' = rest ∧
        CircularQueue.m_inPosT q' = CircularQueue.m_inPosT wrapped_example ∧
        CircularQueue.m_buffer q' = CircularQueue.m_buffer wrapped_example
    end.
Proof.
  split; [apply wrapped_example_reachable|].
  apply (pop_removes_oldest wrapped_example), wrapped_example_reachable.
Defined.

Lemma pops_all_is_flush_witness :
  reachable wrapped_example ∧
  pops (Z.to_nat (CircularQueue.available wrapped_example)) wrapped_example
    = Some (contents wrapped_example, CircularQueue.flush wrapped_example).
Proof.
  split; [apply wrapped_example_reachable|].
  apply (pops_all_is_flush wrapped_example), wrapped_example_reachable.
Defined.

Lemma pop_n_drains_witness :
  reachable wrapped_example ∧ CircularQueue.available wrapped_example ≤ 5 ∧
  (Z.to_nat (CircularQueue.available wrapped_example) ≤ length [0; 0; 0])%nat ∧
  CircularQueue.pop_n [0; 0; 0] 5 wrapped_example =
    Some (CircularQueue.available wrapped_example,
          contents wrapped_example
            ++ drop (Z.to_nat (CircularQueue.available wrapped_example)) [0; 0; 0],
          CircularQueue.flush wrapped_example).
Proof.
  split; [apply wrapped_example_reachable|].
  split; [vm_compute; discriminate|]. split; [vm_compute; lia|].
  apply (pop_n_drains wrapped_example [0; 0; 0] 5);
    [apply wrapped_example_reachable|vm_compute; discriminate|vm_compute; lia].
Defined.

Lemma constructed_queue_shape_witness :
  0 ≤ 4294967295 ≤ SIZE_MAX ∧
  CircularQueue.new (T:=Z) true 4294967295 (λ _, 0) = Some (CircularQueue.mk 0 [] 0 0) ∧
  (4294967295 + 1 ≤ INT_MAX ∨ 4294967295 = SIZE_MAX) ∧
  CircularQueue.m_inPosT (CircularQueue.mk (T:=Z) 0 [] 0 0) = 0 ∧
  CircularQueue.m_outPos (CircularQueue.mk (T:=Z) 0 [] 0 0) = 0 ∧
  Z.of_nat (length (CircularQueue.m_buffer (CircularQueue.mk (T:=Z) 0 [] 0 0)))
    = CircularQueue.m_bufSize (CircularQueue.mk (T:=Z) 0 [] 0 0) ∧
  CircularQueue.m_bufSize (CircularQueue.mk (T:=Z) 0 [] 0 0)
    = (if decide (4294967295 = SIZE_MAX) then 0 else 4294967295 + 1).
Proof.
  split; [unfold SIZE_MAX; lia|]. split; [vm_compute; reflexivity|].
  apply (constructed_queue_shape true 4294967295 (λ _, 0));
    [unfold SIZE_MAX; lia|vm_compute; reflexivity].
Defined.

Lemma no_undefined_step_witness :
  CircularQueueMP.new true 2 (λ _, 0) = Some mixed_start ∧
  0 < CircularQueueMP.m_bufSize mixed_start ∧
  Forall event_ok copying_schedule ∧
  Atomic.exec copying_schedule (Atomic.start mixed_start 2) = Some copying_example ∧
  Atomic.threads copying_example !! 1%nat
    = Some (Atomic.PopN_copy 2 1 0 2 1 [11; 0; 0] 1) ∧
  is_Some (Atomic.step false (Atomic.PopN_copy 2 1 0 2 1 [11; 0; 0] 1)
             (Atomic.queue copying_example)).
Proof.
  assert (Forall (event_ok (T := Z)) copying_schedule) as Hevs
    by (repeat constructor; simpl; lia).
  split; [vm_compute; reflexivity|]. split; [vm_compute; reflexivity|].
  split; [exact Hevs|]. split; [vm_compute; reflexivity|]. split; [reflexivity|].
  apply (no_undefined_step true 2 (λ _, 0) mixed_start 2 copying_schedule copying_example 1
           (Atomic.PopN_copy 2 1 0 2 1 [11; 0; 0] 1) false);
    [vm_compute; reflexivity|vm_compute; reflexivity|exact Hevs
    |vm_compute; reflexivity|reflexivity].
Defined.

Lemma consumer_writes_only_read_cursor_witness :
  Forall consumer_event consumer_schedule ∧
  Forall consumer_side (Atomic.threads consumer_start) ∧
  Atomic.exec consumer_schedule consumer_start = Some consumer_final ∧
  CircularQueueMP.m_inPosT (Atomic.queue consumer_final)
    = CircularQueueMP.m_inPosT (Atomic.queue consumer_start) ∧
  CircularQueueMP.m_buffer (Atomic.queue consumer_final)
    = CircularQueueMP.m_buffer (Atomic.queue consumer_start) ∧
  CircularQueueMP.m_inPosL (Atomic.queue consumer_final)
    = CircularQueueMP.m_inPosL (Atomic.queue consumer_start) ∧
  CircularQueueMP.m_inPosC (Atomic.queue consumer_final)
    = CircularQueueMP.m_inPosC (Atomic.queue consumer_start) ∧
  CircularQueueMP.m_bufSize (Atomic.queue consumer_final)
    = CircularQueueMP.m_bufSize (Atomic.queue consumer_start) ∧
  Forall consumer_side (Atomic.threads consumer_final).
Proof.
  assert (Forall (consumer_event (T := Z)) consumer_schedule) as Hevs
    by (repeat constructor).
  assert (Forall (consumer_side (T := Z)) (Atomic.threads consumer_start)) as Hths
    by (repeat constructor).
  split; [exact Hevs|]. split; [exact Hths|]. split; [vm_compute; reflexivity|].
  apply (consumer_writes_only_read_cursor consumer_schedule consumer_start consumer_final);
    [exact Hevs|exact Hths|vm_compute; reflexivity].
Defined.

Lemma producers_never_write_read_cursor_witness :
  Forall producer_event producers_schedule ∧
  Forall producer_side (Atomic.threads (Atomic.start mixed_start 2)) ∧
  Atomic.exec producers_schedule (Atomic.start mixed_start 2) = Some producers_final ∧
  CircularQueueMP.m_outPos (Atomic.queue producers_final)
    = CircularQueueMP.m_outPos (Atomic.queue (Atomic.start mixed_start 2)) ∧
  CircularQueueMP.m_bufSize (Atomic.queue producers_final)
    = CircularQueueMP.m_bufSize (Atomic.queue (Atomic.start mixed_start 2)) ∧
  Forall producer_side (Atomic.threads producers_final).
Proof.
  assert (Forall (producer_event (T := Z)) producers_schedule) as Hevs
    by (repeat constructor).
  assert (Forall (producer_side (T := Z)) (Atomic.threads (Atomic.start mixed_start 2)))
    as Hths by (repeat constructor).
  split; [exact Hevs|]. split; [exact Hths|]. split; [vm_compute; reflexivity|].
  apply (producers_never_write_read_cursor producers_schedule
           (Atomic.start mixed_start 2) producers_final);
    [exact Hevs|exact Hths|vm_compute; reflexivity].
Defined.

Lemma mp_fifo_round_trip_witness :
  0 ≤ 2 ∧ 2 + 1 ≤ INT_MAX ∧ Z.of_nat (length [7; 8]) ≤ 2 ∧
  CircularQueueMP.new true 2 (λ _, 0) = Some mixed_start ∧
  ∃ m1 q2,
    mp_pushes [7; 8] mixed_start = Some (replicate (length [7; 8]) true, m1) ∧
    quiescent m1 ∧
    CircularQueueMP.availableForWrite m1 = 2 - Z.of_nat (length [7; 8]) ∧
    pops (length [7; 8]) (CircularQueueMP.base m1) = Some ([7; 8], q2).
Proof.
  split; [lia|]. split; [unfold INT_MAX; lia|]. split; [simpl; lia|].
  split; [vm_compute; reflexivity|].
  apply (mp_fifo_round_trip true 2 (λ _, 0) mixed_start [7; 8]);
    [lia|unfold INT_MAX; lia|simpl; lia|vm_compute; reflexivity].
Defined.

Lemma esp8266_availableForWrite_ignores_pushes_witness :
  0 ≤ 2 ∧ 2 + 1 ≤ INT_MAX ∧ Z.of_nat (length [7; 8]) ≤ 2 ∧
  CircularQueueMP.new true 2 (λ _, 0) = Some mixed_start ∧
  ∃ m1,
    esp8266_pushes [7; 8] mixed_start = Some (replicate (length [7; 8]) true, m1) ∧
    CircularQueue.availableForWrite (CircularQueueMP.base m1)
      = 2 - Z.of_nat (length [7; 8]) ∧
    CircularQueueMP.availableForWrite m1 = 2.
Proof.
  split; [lia|]. split; [unfold INT_MAX; lia|]. split; [simpl; lia|].
  split; [vm_compute; reflexivity|].
  apply (esp8266_availableForWrite_ignores_pushes true 2 (λ _, 0) mixed_start [7; 8]);
    [lia|unfold INT_MAX; lia|simpl; lia|vm_compute; reflexivity].
Defined.

Lemma mp_push_pop_fifo_witness :
  CircularQueueMP.new true 2 (λ _, 0) = Some mixed_start ∧
  0 < CircularQueueMP.m_bufSize mixed_start ∧
  Forall spsc_event spsc_schedule ∧
  Atomic.exec spsc_schedule (Atomic.start mixed_start 2) = Some spsc_final ∧
  stored spsc_schedule (Atomic.start mixed_start 2)
    = delivered spsc_schedule (Atomic.start mixed_start 2)
        ++ contents (CircularQueueMP.base (Atomic.queue spsc_final))
        ++ unpublished spsc_final.
Proof.
  assert (Forall (spsc_event (T := Z)) spsc_schedule) as Hevs by (repeat constructor).
  split; [vm_compute; reflexivity|]. split; [vm_compute; reflexivity|].
  split; [exact Hevs|]. split; [vm_compute; reflexivity|].
  apply (mp_push_pop_fifo true 2 (λ _, 0) mixed_start spsc_schedule spsc_final);
    [vm_compute; reflexivity|vm_compute; reflexivity|exact Hevs|vm_compute; reflexivity].
Defined.

(** In that execution the pushes stored 1 and 2, the pops delivered 1 (after
    one that found the queue empty), nothing is unread and 2 is not yet
    published. *)
Example spsc_schedule_history :
  stored spsc_schedule (Atomic.start mixed_start 2) = [1; 2] ∧
  delivered spsc_schedule (Atomic.start mixed_start 2) = [1] ∧
  contents (CircularQueueMP.base (Atomic.queue spsc_final)) = [] ∧
  unpublished spsc_final = [2].
Proof. by vm_compute. Qed.
